(** * Parse-verification harness of tree-sitter-move

    A shallow embedding of [comprehensive_move_test.py]: the recursive
    inspections of a syntax tree ([find_errors], [count_node_types],
    [analyze_node]), the per-file probe [test_move_file] and the batch
    driver [main].

    Python values are modelled as follows.
    - [str] is a list of Unicode code points ([pystr]); [bytes] is a list of
      [byte].
    - a tree-sitter node is a finite tree [node] carrying its type tag, its
      optional raw text, its start and end points, its ordered children and
      the error flag the parser set on it.
    - a [dict] is a [gmap]; it is only ever read through [len], [values] and
      [sorted(items())], none of which depends on insertion order.
    - [print] appends an [event] to a log; an exception stops the
      computation and leaves the log written so far in place. *)

From Stdlib Require Import List NArith ZArith QArith Ascii String Lia.
From Stdlib.Strings Require Import Byte.
From stdpp Require Import gmap list sorting.
Import ListNotations.

Local Open Scope N_scope.
Local Open Scope nat_scope.

(** ** Strings *)

Abbreviation pystr := (list N).
Abbreviation pybytes := (list byte).

(** An ASCII literal as a [str]. *)
Definition str (s : string) : pystr :=
  map N_of_ascii (list_ascii_of_string s).

(** [s[:n]] *)
Definition slice_to (n : nat) (s : pystr) : pystr := firstn n s.

(** [s.replace('\n', '\\n')]: every line feed becomes a backslash and an n. *)
Definition escape_newlines (s : pystr) : pystr :=
  flat_map (fun c => if (c =? 10)%N then [92%N; 110%N] else [c]) s.

Definition ellipsis : pystr := str "...".

(** *** UTF-8

    [bytes.decode('utf-8')] with the default strict error handler: overlong
    forms, surrogates and values above U+10FFFF are rejected. *)
Definition continuation (b : byte) : option N :=
  let v := Byte.to_N b in
  if (128 <=? v)%N && (v <=? 191)%N then Some (v - 128)%N else None.

Fixpoint utf8_decode (bs : pybytes) : option pystr :=
  match bs with
  | [] => Some []
  | b0 :: r0 =>
      let v0 := Byte.to_N b0 in
      if (v0 <? 128)%N then cons v0 <$> utf8_decode r0
      else if (v0 <? 194)%N then None
      else if (v0 <? 224)%N then
        match r0 with
        | b1 :: r1 =>
            match continuation b1 with
            | Some c1 => cons ((v0 - 192) * 64 + c1)%N <$> utf8_decode r1
            | None => None
            end
        | _ => None
        end
      else if (v0 <? 240)%N then
        match r0 with
        | b1 :: b2 :: r2 =>
            match continuation b1, continuation b2 with
            | Some c1, Some c2 =>
                let cp := ((v0 - 224) * 4096 + c1 * 64 + c2)%N in
                if (cp <? 2048)%N || ((55296 <=? cp)%N && (cp <=? 57343)%N)
                then None
                else cons cp <$> utf8_decode r2
            | _, _ => None
            end
        | _ => None
        end
      else if (v0 <? 245)%N then
        match r0 with
        | b1 :: b2 :: b3 :: r3 =>
            match continuation b1, continuation b2, continuation b3 with
            | Some c1, Some c2, Some c3 =>
                let cp := ((v0 - 240) * 262144 + c1 * 4096 + c2 * 64 + c3)%N in
                if (cp <? 65536)%N || (1114111 <? cp)%N
                then None
                else cons cp <$> utf8_decode r3
            | _, _, _ => None
            end
        | _ => None
        end
      else None
  end.

Definition byte_of_N (v : N) : byte :=
  match Byte.of_N v with Some b => b | None => x00 end.

(** The UTF-8 form of one code point; surrogates cannot be encoded. *)
Definition utf8_encode_cp (c : N) : option pybytes :=
  if (c <? 128)%N then Some [byte_of_N c]
  else if (c <? 2048)%N then
    Some [byte_of_N (192 + c / 64); byte_of_N (128 + c mod 64)]%N
  else if (c <? 65536)%N then
    if (55296 <=? c)%N && (c <=? 57343)%N then None
    else Some [byte_of_N (224 + c / 4096);
               byte_of_N (128 + (c / 64) mod 64);
               byte_of_N (128 + c mod 64)]%N
  else if (c <? 1114112)%N then
    Some [byte_of_N (240 + c / 262144);
          byte_of_N (128 + (c / 4096) mod 64);
          byte_of_N (128 + (c / 64) mod 64);
          byte_of_N (128 + c mod 64)]%N
  else None.

(** [bytes(s, "utf8")] *)
Fixpoint utf8_encode (s : pystr) : option pybytes :=
  match s with
  | [] => Some []
  | c :: s' =>
      match utf8_encode_cp c, utf8_encode s' with
      | Some b, Some bs => Some (b ++ bs)
      | _, _ => None
      end
  end.

(** *** [str.splitlines()]

    The line boundaries of Python: LF, VT, FF, CR, CR LF, FS, GS, RS, NEL,
    LS and PS.  The boundaries are not kept, and a final line without a
    boundary counts as a line. *)
Definition is_linebreak (c : N) : bool :=
  bool_decide (c ∈ [10; 11; 12; 13; 28; 29; 30; 133; 8232; 8233]%N).

Fixpoint splitlines_from (cur : pystr) (s : pystr) : list pystr :=
  match s with
  | [] => match cur with [] => [] | _ => [cur] end
  | c :: s' =>
      if is_linebreak c then
        cur :: match s' with
               | c' :: s'' =>
                   if (c =? 13)%N && (c' =? 10)%N
                   then splitlines_from [] s''
                   else splitlines_from [] s'
               | [] => []
               end
      else splitlines_from (cur ++ [c]) s'
  end.

Definition splitlines (s : pystr) : list pystr := splitlines_from [] s.

(** *** Ordering of [str]: lexicographic on code points *)
Fixpoint str_leb (a b : pystr) : bool :=
  match a, b with
  | [], _ => true
  | _ :: _, [] => false
  | x :: a', y :: b' =>
      if (x <? y)%N then true
      else if (y <? x)%N then false
      else str_leb a' b'
  end.

Definition str_le (a b : pystr) : Prop := str_leb a b = true.

Global Instance str_le_dec : RelDecision str_le.
Proof. intros a b. unfold str_le. apply _. Defined.

(** Ordering of [(str, v)] tuples: by the string, then by the value. *)
Definition tuple_le {V} (vle : relation V) (a b : pystr * V) : Prop :=
  str_le a.1 b.1 ∧ (a.1 = b.1 → vle a.2 b.2).

Global Instance tuple_le_dec {V} (vle : relation V) `{!RelDecision vle} :
  RelDecision (tuple_le vle).
Proof. intros a b. unfold tuple_le. apply _. Defined.

(** [False <= True] *)
Definition bool_le (a b : bool) : Prop := a = true → b = true.

Global Instance bool_le_dec : RelDecision bool_le.
Proof. intros a b. unfold bool_le. apply _. Defined.

(** [sorted(l)] for a list of [str] *)
Definition sorted (l : list pystr) : list pystr := merge_sort str_le l.

(** [sorted(d.items())] *)
Definition sorted_items {V} (vle : relation V) `{!RelDecision vle}
    (d : gmap pystr V) : list (pystr * V) :=
  merge_sort (tuple_le vle) (map_to_list d).

(** ** Syntax trees *)

Record point := Point { row : nat; column : nat }.

Unset Elimination Schemes.
Inductive node : Type := Node {
  type : pystr;
  text : option pybytes;
  start_point : point;
  end_point : point;
  children : list node;
  has_error : bool
}.
Set Elimination Schemes.

Definition child_count (n : node) : nat := length (children n).

Section node_induction.
Variable P : node -> Prop.
Hypothesis P_Node : forall ty tx sp ep cs he,
    Forall P cs -> P (Node ty tx sp ep cs he).

Fixpoint node_ind (n : node) : P n :=
  match n with
  | Node ty tx sp ep cs he =>
      P_Node ty tx sp ep cs he
        ((fix all (l : list node) : Forall P l :=
            match l with
            | [] => @List.Forall_nil _ P
            | c :: l' => @List.Forall_cons _ P c l' (node_ind c) (all l')
            end) cs)
  end.
End node_induction.

Global Instance point_eq_dec : EqDecision point.
Proof. solve_decision. Defined.

(** The reserved type tag of an error-marker node. *)
Definition ERROR : pystr := str "ERROR".

Definition is_error (n : node) : bool := bool_decide (type n = ERROR).

(** *** Reference traversals

    The pre-order sequence of a tree: the node itself, then the pre-order
    sequence of each child, left to right. *)
Fixpoint preorder (n : node) : list node :=
  n :: flat_map preorder (children n).

(** Number of nodes of a tree. *)
Fixpoint node_count (n : node) : nat :=
  S (list_sum (map node_count (children n))).

(** ** ErrorLocator: [find_errors] (nested in [test_move_file]) *)

Fixpoint find_errors (n : node) : list node :=
  let errors := [] in
  let errors := if bool_decide (type n = ERROR) then errors ++ [n] else errors in
  fold_left (fun errors child => errors ++ find_errors child) (children n) errors.

(** Modelled from the spec: the contract of the parser on the error flags
    it sets.  The runtime that computes the [has_error] attribute is not
    part of the harness, which only reads it; following the data model, a
    node that is an error-marker node is flagged, and so is a node one of
    whose children is flagged.  Nothing is assumed of a flagged node that
    is not tagged ERROR and has no flagged child (a node the parser
    inserted for a missing token is one). *)
Fixpoint flags_sound (n : node) : bool :=
  implb (is_error n || existsb has_error (children n)) (has_error n)
  && forallb flags_sound (children n).

(** The object returned by [parser.parse]. *)
Record tree := Tree { root_node : node }.

(** ** Effects: output and exceptions *)

Inductive exn :=
| ImportError
| OSError
| UnicodeDecodeError
| UnicodeEncodeError
| ZeroDivisionError
| OtherException (name : pystr).

Definition result (A : Type) : Type := exn + A.

(** One constructor for each [print] of the harness, carrying the values
    that are formatted into the line. *)
Inductive event :=
(* test_move_file *)
| Testing (file_path : pystr)
| FileSize (chars : nat)
| LineCount (lines : nat)
| PreviewHeader (shown : nat)
| BoxTop
| PreviewLine (i : nat) (line_preview : pystr)
| Omitted (lines : nat)
| BoxBottom
| StartParse
| ParseFailed
| FoundErrors (count : nat)
| ErrorLocation (i line col : nat)
| ErrorContent (error_text : pystr)
| ParseOk
| RootType (ty : pystr)
| ChildCount (count : nat)
| AstHeader
| AstLine (line : pystr)
| StatsHeader
| Stat (node_type : pystr) (count : nat)
| TestResult (pass : bool)
| TestException (e : exn)
(* main *)
| Banner
| Initializing
| ParserCreated
| LanguageName
| NoDir
| NoFiles
| Found (count : nat)
| Listed (i : nat) (filename : pystr)
| StartTests
| SummaryHeader
| OverallHeader
| TotalFiles (total_files : Z)
| TestsPassed (passed_files : Z)
| TestsFailed (failed_files : Z)
| SuccessRate (percent : Q)
| DetailsHeader
| Detail (filename : pystr) (pass : bool)
| AllPassed
| SomeFailed (failed_files : Z)
| Completed
| ImportFailed (e : exn)
| OtherError (e : exn).

(** A computation yields the lines it printed and either the exception it
    raised or its value. *)
Definition M (A : Type) : Type := list event * result A.

Definition ret {A} (a : A) : M A := ([], inr a).
Definition lift {A} (r : result A) : M A := ([], r).
Definition print (ev : event) : M unit := ([ev], inr tt).

Definition bind {A B} (m : M A) (k : A -> M B) : M B :=
  match m with
  | (out, inl e) => (out, inl e)
  | (out, inr a) => let '(out', r) := k a in (out ++ out', r)
  end.

(** [try: m except Exception as e: h e] *)
Definition try_except {A} (m : M A) (h : exn -> M A) : M A :=
  match m with
  | (out, inl e) => let '(out', r) := h e in (out ++ out', r)
  | (out, inr a) => (out, inr a)
  end.

Global Instance M_ret : MRet M := @ret.
Global Instance M_bind : MBind M := fun A B k m => bind m k.

(** [for x in l: body x] *)
Definition for_each {A} (l : list A) (body : A -> M unit) : M unit :=
  (fix loop (l : list A) : M unit :=
     match l with
     | [] => ret tt
     | x :: l' => body x ;; loop l'
     end) l.

(** [for x in l: acc = body acc x] with a loop-carried value *)
Definition for_fold {A S} (l : list A) (body : S -> A -> M S) (acc : S) : M S :=
  (fix loop (l : list A) (acc : S) : M S :=
     match l with
     | [] => ret acc
     | x :: l' => acc' ← body acc x; loop l' acc'
     end) l acc.

(** [enumerate(l, 1)] *)
Definition enumerate1 {A} (l : list A) : list (nat * A) :=
  combine (seq 1 (length l)) l.

Definition decode (raw : pybytes) : result pystr :=
  match utf8_decode raw with
  | Some s => inr s
  | None => inl UnicodeDecodeError
  end.

Definition encode (s : pystr) : result pybytes :=
  match utf8_encode s with
  | Some b => inr b
  | None => inl UnicodeEncodeError
  end.

(** ** Capped renderings *)

(** Node text in [analyze_node], after decoding. *)
Definition text_preview_of (s : pystr) : pystr :=
  let text_preview := escape_newlines (slice_to 50 s) in
  if length text_preview =? 50 then text_preview ++ ellipsis else text_preview.

Definition text_preview (raw : pybytes) : result pystr :=
  match decode raw with
  | inr s => inr (text_preview_of s)
  | inl e => inl e
  end.

(** Error content in [test_move_file], after decoding. *)
Definition error_text_of (s : pystr) : pystr := slice_to 30 s.

Definition error_text (raw : pybytes) : result pystr :=
  match decode raw with
  | inr s => inr (error_text_of s)
  | inl e => inl e
  end.

(** A line of the code preview in [test_move_file]. *)
Definition line_preview (line : pystr) : pystr :=
  let line_preview := slice_to 45 line in
  if 45 <? length line then line_preview ++ ellipsis else line_preview.

(** ** TreeWalker *)

(** The glyphs used by [analyze_node]: U+251C, U+2500 and U+2192. *)
Definition connector : pystr := [9500; 9472; 32]%N.
Definition arrow_quote : pystr := [32; 8594; 32; 39]%N.
Definition quote : pystr := [39]%N.

(** ["  " * depth] *)
Definition indent_of (depth : nat) : pystr := concat (repeat (str "  ") depth).

(** The line [analyze_node] prints for one node. *)
Definition node_line (n : node) (depth : nat) : result pystr :=
  let indent := indent_of depth in
  let result := indent ++ connector ++ type n in
  match text n with
  | Some ((_ :: _) as raw) =>
      match text_preview raw with
      | inr text_preview => inr (result ++ arrow_quote ++ text_preview ++ quote)
      | inl e => inl e
      end
  | _ => inr result
  end.

(** [print(result)], once [result] is built. *)
Definition print_node_line (n : node) (depth : nat) : M unit :=
  line ← lift (node_line n depth);
  print (AstLine line).

Fixpoint analyze_node (n : node) (depth max_depth : nat) : M unit :=
  print_node_line n depth ;;
  if (depth <? max_depth) && (0 <? child_count n)
  then for_each (children n)
         (fun child => analyze_node child (depth + 1) max_depth)
  else ret tt.

(** [type_counts[ty] = type_counts.get(ty, 0) + 1] *)
Definition bump (type_counts : gmap pystr nat) (ty : pystr) : gmap pystr nat :=
  <[ty := default 0 (type_counts !! ty) + 1]> type_counts.

(** [visit], the closure of [count_node_types]; the dictionary it updates
    is threaded through. *)
Fixpoint visit (n : node) (type_counts : gmap pystr nat) : gmap pystr nat :=
  let type_counts := bump type_counts (type n) in
  fold_left (fun type_counts child => visit child type_counts)
            (children n) type_counts.

Definition count_node_types (n : node) : gmap pystr nat := visit n ∅.

(** [sum(d.values())] *)
Definition total_count (d : gmap pystr nat) : nat :=
  map_fold (fun _ v acc => v + acc) 0 d.

(** ** FileProbe: [test_move_file] *)

Definition parser : Type := pybytes -> result tree.

(** The world the harness runs in: the outcome of the imports and of the
    construction of the parser, whether the directory of test files
    exists, the names of its entries that [glob] matches (in the order
    [glob] yields them), and what reading a path as UTF-8 text gives. *)
Record env := Env {
  import_modules : result unit;
  create_parser : result parser;
  dir_exists : bool;
  dir_matches : list pystr;
  read_text : pystr -> result pystr
}.

(** The report printed for one error node in [test_move_file]. *)
Definition report_error (i : nat) (error_node : node) : M unit :=
  let start_point := start_point error_node in
  print (ErrorLocation i (row start_point + 1) (column start_point + 1)) ;;
  match text error_node with
  | Some ((_ :: _) as raw) =>
      error_text ← lift (error_text raw);
      print (ErrorContent error_text)
  | _ => ret tt
  end.

(** The code preview: the sizes and at most the first ten lines. *)
Definition show_preview (code : pystr) : M unit :=
  print (FileSize (length code)) ;;
  print (LineCount (length (splitlines code))) ;;
  let lines := splitlines code in
  let preview_lines := min 10 (length lines) in
  print (PreviewHeader preview_lines) ;;
  print BoxTop ;;
  for_each (enumerate1 (firstn preview_lines lines))
    (fun '(i, line) => print (PreviewLine i (line_preview line))) ;;
  (if preview_lines <? length lines
   then print (Omitted (length lines - preview_lines))
   else ret tt) ;;
  print BoxBottom.

(** The branch taken when the root has an error. *)
Definition report_errors (root : node) : M unit :=
  print ParseFailed ;;
  let error_nodes := find_errors root in
  print (FoundErrors (length error_nodes)) ;;
  for_each (enumerate1 (firstn 3 error_nodes))
    (fun '(i, error_node) => report_error i error_node).

(** The branch taken when the root has no error. *)
Definition report_tree (root : node) : M unit :=
  print ParseOk ;;
  print (RootType (type root)) ;;
  print (ChildCount (child_count root)) ;;
  print AstHeader ;;
  analyze_node root 0 2 ;;
  let node_types := count_node_types root in
  print StatsHeader ;;
  for_each (sorted_items le node_types)
    (fun '(node_type, count) => print (Stat node_type count)).

(** The body of the [try] block. *)
Definition test_move_file_try (e : env) (file_path : pystr) (parser : parser)
  : M bool :=
  code ← lift (read_text e file_path);
  show_preview code ;;
  print StartParse ;;
  source ← lift (encode code);
  tree ← lift (parser source);
  (if has_error (root_node tree)
   then report_errors (root_node tree)
   else report_tree (root_node tree)) ;;
  print (TestResult (negb (has_error (root_node tree)))) ;;
  ret (negb (has_error (root_node tree))).

Definition test_move_file (e : env) (file_path : pystr) (parser : parser)
  : M bool :=
  print (Testing file_path) ;;
  try_except (test_move_file_try e file_path parser)
    (fun ex => print (TestException ex) ;; ret false).

(** ** SuiteRunner: [main] *)

Definition test_dir : pystr := str "move_test_files".

(** [os.path.join(test_dir, name)] for an entry name. *)
Definition path_join (dir name : pystr) : pystr := dir ++ str "/" ++ name.

(** [glob.glob(os.path.join(test_dir, "*.move"))] *)
Definition glob_move (e : env) : list pystr :=
  map (path_join test_dir) (dir_matches e).

(** [os.path.basename]: what follows the last slash. *)
Definition basename (p : pystr) : pystr :=
  fold_left (fun acc c => if (c =? 47)%N then [] else acc ++ [c]) p [].

(** [a / b] on integers is true division and raises on a zero divisor. *)
Definition true_div (a b : Z) : result Q :=
  if (b =? 0)%Z then inl ZeroDivisionError
  else inr (inject_Z a / inject_Z b)%Q.

(** [sum(1 for success in d.values() if success)] *)
Definition count_passed (d : gmap pystr bool) : nat :=
  length (List.filter snd (map_to_list d)).

(** The loop over the sorted files; [test_results] is carried along. *)
Definition run_tests (e : env) (parser : parser) (files : list pystr)
  : M (gmap pystr bool) :=
  for_fold files
    (fun test_results file_path =>
       let filename := basename file_path in
       success ← test_move_file e file_path parser;
       ret (<[filename := success]> test_results))
    ∅.

(** The summary printed from [test_results]. *)
Definition print_summary (test_results : gmap pystr bool) : M unit :=
  print SummaryHeader ;;
  let total_files := Z.of_nat (size test_results) in
  let passed_files := Z.of_nat (count_passed test_results) in
  let failed_files := (total_files - passed_files)%Z in
  print OverallHeader ;;
  print (TotalFiles total_files) ;;
  print (TestsPassed passed_files) ;;
  print (TestsFailed failed_files) ;;
  ratio ← lift (true_div passed_files total_files);
  print (SuccessRate (ratio * 100)%Q) ;;
  print DetailsHeader ;;
  for_each (sorted_items bool_le test_results)
    (fun '(filename, success) => print (Detail filename success)) ;;
  (if (failed_files =? 0)%Z then print AllPassed
   else print (SomeFailed failed_files)) ;;
  print Completed.

(** The body of the [try] block of [main]. *)
Definition main_try (e : env) : M unit :=
  lift (import_modules e) ;;
  print Initializing ;;
  parser ← lift (create_parser e);
  print ParserCreated ;;
  print LanguageName ;;
  if negb (dir_exists e) then print NoDir
  else
    let move_files := glob_move e in
    if length move_files =? 0 then print NoFiles
    else
      print (Found (length move_files)) ;;
      for_each (enumerate1 move_files)
        (fun '(i, file_path) => print (Listed i (basename file_path))) ;;
      print StartTests ;;
      test_results ← run_tests e parser (sorted move_files);
      print_summary test_results.

Definition main (e : env) : M unit :=
  print Banner ;;
  try_except (main_try e)
    (fun ex =>
       match ex with
       | ImportError => print (ImportFailed ex)
       | _ => print (OtherError ex)
       end).

(** ** Reference notions used in the statements *)

(** The truncation law for a rendering [render] with cap [cap]: a text
    longer than the cap is cut to the cap and followed by the ellipsis, a
    text at or under the cap is reproduced as it is. *)
Definition truncation_law (cap : nat) (render : pystr -> pystr) : Prop :=
  ∀ s : pystr,
    (cap < length s → render s = firstn cap s ++ ellipsis) ∧
    (length s ≤ cap → render s = s).

(** The nodes [analyze_node] reaches, with their depths: the pre-order
    sequence cut below [max_depth]. *)
Fixpoint visited (n : node) (depth max_depth : nat) : list (node * nat) :=
  (n, depth) ::
  if depth <? max_depth
  then flat_map (fun child => visited child (depth + 1) max_depth) (children n)
  else [].

(** Whether the text of a node can be rendered: it is absent, empty or
    valid UTF-8. *)
Definition decodable (n : node) : Prop :=
  match text n with
  | Some ((_ :: _) as raw) => is_Some (utf8_decode raw)
  | _ => True
  end.

Global Instance decodable_dec (n : node) : Decision (decodable n).
Proof.
  unfold decodable. destruct (text n) as [[|b raw]|]; apply _.
Defined.

(** What becomes of a file up to the parse: the tree, or the fault raised
    by reading it, encoding it or parsing it. *)
Definition parse_outcome (e : env) (file_path : pystr) (parser : parser)
  : result tree :=
  match read_text e file_path with
  | inl ex => inl ex
  | inr code =>
      match encode code with
      | inl ex => inl ex
      | inr source => parser source
      end
  end.

(** The error locations shown in a log, in order. *)
Definition locations (log : list event) : list (nat * nat * nat) :=
  omap (fun ev => match ev with
                  | ErrorLocation i line col => Some (i, line, col)
                  | _ => None
                  end) log.

(** A line that is not an error location. *)
Definition not_location (ev : event) : Prop :=
  match ev with ErrorLocation _ _ _ => False | _ => True end.

(** The 1-based position reported for the [i]-th error node. *)
Definition location_of (entry : nat * node) : nat * nat * nat :=
  (entry.1, row (start_point entry.2) + 1, column (start_point entry.2) + 1).

(** Number of occurrences of a type tag in a sequence of tags. *)
Definition occurrences (ty : pystr) (tags : list pystr) : nat :=
  length (List.filter (fun ty' => bool_decide (ty' = ty)) tags).

(** The verdict of the probe of a file. *)
Definition verdict_of (e : env) (parser : parser) (file_path : pystr) : bool :=
  match (test_move_file e file_path parser).2 with
  | inr success => success
  | inl _ => false
  end.

(** [test_results] after the files [files] were probed in that order. *)
Definition results_of (e : env) (parser : parser) (files : list pystr)
  : gmap pystr bool :=
  fold_left
    (fun test_results file_path =>
       <[basename file_path := verdict_of e parser file_path]> test_results)
    files ∅.

(** The lines of a probe other than its heading. *)
Definition body_line (ev : event) : Prop :=
  match ev with
  | FileSize _ | LineCount _ | PreviewHeader _ | BoxTop | PreviewLine _ _
  | Omitted _ | BoxBottom | StartParse | ParseFailed | FoundErrors _
  | ErrorLocation _ _ _ | ErrorContent _ | ParseOk | RootType _
  | ChildCount _ | AstHeader | AstLine _ | StatsHeader | Stat _ _
  | TestResult _ | TestException _ => True
  | _ => False
  end.

(** The lines a run prints when it probes no file and prints no summary. *)
Definition abort_line (ev : event) : Prop :=
  match ev with
  | Banner | Initializing | ParserCreated | LanguageName | NoDir | NoFiles
  | ImportFailed _ | OtherError _ => True
  | _ => False
  end.

(** The files probed in a log, in order. *)
Definition probed (log : list event) : list pystr :=
  omap (fun ev => match ev with Testing file_path => Some file_path
                           | _ => None end) log.

(** The per-file results of the summary in a log, in order. *)
Definition details (log : list event) : list (pystr * bool) :=
  omap (fun ev => match ev with Detail filename success =>
                                  Some (filename, success)
                           | _ => None end) log.

(** A log without the listing of the files as [glob] found them. *)
Definition report (log : list event) : list event :=
  List.filter (fun ev => match ev with Listed _ _ => false | _ => true end)
              log.

(** The world [e] with the entries of the directory in another order. *)
Definition reordered (e : env) (names : list pystr) : env :=
  Env (import_modules e) (create_parser e) (dir_exists e) names (read_text e).

(** The line printed by the handlers of [main]. *)
Definition handler_line (ex : exn) : event :=
  match ex with
  | ImportError => ImportFailed ex
  | _ => OtherError ex
  end.

(** ** Separators: [print_separator] and [print_subseparator]

    Both print three strings; the functions below return the strings
    handed to [print], in order. *)





(** ** Further reference notions *)

(** Number of edges on the longest path from a node down to a leaf. *)
Fixpoint height (n : node) : nat :=
  list_max (map (fun child => S (height child)) (children n)).

(** [descends n k m]: the node [m] is reached from [n] by going down [k]
    times to a child. *)
Fixpoint descends (n : node) (k : nat) (m : node) : Prop :=
  match k with
  | 0 => m = n
  | S k' => ∃ child, child ∈ children n ∧ descends child k' m
  end.

(** The census lines of a log, in order. *)
Definition stats (log : list event) : list (pystr * nat) :=
  omap (fun ev => match ev with Stat node_type count => Some (node_type, count)
                           | _ => None end) log.

(** The lines of the code preview shown in a log, in order. *)
Definition preview_shown (log : list event) : list (nat * pystr) :=
  omap (fun ev => match ev with PreviewLine i line => Some (i, line)
                           | _ => None end) log.

(** The number of lines a log reports as omitted from the code preview. *)
Definition preview_omitted (log : list event) : nat :=
  list_sum (omap (fun ev => match ev with Omitted lines => Some lines
                                     | _ => None end) log).

(** The lines of the structural render in a log, in order. *)
Definition ast_lines (log : list event) : list pystr :=
  omap (fun ev => match ev with AstLine line => Some line | _ => None end) log.

(** The lines of a probe between its heading and its last line. *)
Definition inner_line (ev : event) : Prop :=
  match ev with
  | FileSize _ | LineCount _ | PreviewHeader _ | BoxTop | PreviewLine _ _
  | Omitted _ | BoxBottom | StartParse | ParseFailed | FoundErrors _
  | ErrorLocation _ _ _ | ErrorContent _ | ParseOk | RootType _
  | ChildCount _ | AstHeader | AstLine _ | StatsHeader | Stat _ _ => True
  | _ => False
  end.

(** An error excerpt within its cap; any other line. *)
Definition excerpt_capped (ev : event) : Prop :=
  match ev with
  | ErrorContent error_text => length error_text ≤ 30
  | _ => True
  end.

(** The discovery listing of a log, in order. *)
Definition listed (log : list event) : list (nat * pystr) :=
  omap (fun ev => match ev with Listed i filename => Some (i, filename)
                           | _ => None end) log.

(** Strict order on [str]. *)
Definition str_lt (a b : pystr) : Prop := str_le a b ∧ a ≠ b.

(** ** Sample inputs *)

Definition origin : point := Point 0 0.

(** A node without children; it is flagged when it is tagged ERROR. *)
Definition leaf (ty : string) (tx : option pybytes) (pos : point) : node :=
  Node (str ty) tx pos pos [] (bool_decide (str ty = ERROR)).

(** An error-free tree; the text of its second leaf is not UTF-8. *)
Definition undecodable_tree : tree :=
  Tree (Node (str "source_file") None origin (Point 0 3)
          [leaf "identifier" (Some [x61]) origin;
           leaf "identifier" (Some [xff]) (Point 0 1);
           leaf "identifier" (Some [x62]) (Point 0 2)]
          false).

(** A tree with four error nodes, one of them nested in another. *)
Definition faulty_tree : tree :=
  Tree (Node (str "source_file") None origin (Point 4 0)
          [Node ERROR (Some [x7b]) (Point 0 7) (Point 0 8)
             [leaf "ERROR" (Some [x28]) (Point 0 7)]
             true;
           leaf "module" (Some [x6d]) (Point 1 0);
           leaf "ERROR" None (Point 2 4);
           leaf "ERROR" (Some [x7d]) (Point 3 2)]
          true).

(** A tree without error nodes whose texts are all valid UTF-8. *)
Definition clean_tree : tree :=
  Tree (Node (str "source_file") None origin (Point 1 0)
          [Node (str "module") (Some [x6d]) origin (Point 0 16)
             [leaf "identifier" (Some [x6d]) (Point 0 12)]
             false]
          false).

(** The tree of an unterminated block: no node is tagged ERROR, but the
    parser inserted a node for the missing closing brace, with an empty
    text, and flagged it and its ancestors. *)
Definition missing_token_tree : tree :=
  Tree (Node (str "source_file") (Some [x6d]) origin (Point 0 15)
          [Node (str "module") (Some [x6d]) origin (Point 0 15)
             [leaf "identifier" (Some [x6d]) (Point 0 12);
              leaf "{" (Some [x7b]) (Point 0 14);
              Node (str "}") (Some []) (Point 0 15) (Point 0 15) [] true]
             true]
          true).

Definition source_text : pystr := str "module 0x1::m {}".

Definition parser_of (t : tree) : parser := fun _ => inr t.

(** A world with the given directory entries, in which the imports
    succeed, every file reads as [source_text] and parses to [t]. *)
Definition world (t : tree) (names : list pystr) : env :=
  Env (inr tt) (inr (parser_of t)) true names (fun _ => inr source_text).

(** A world with two files: [a.move] parses to [clean_tree], [b.move]
    cannot be read.  The directory yields [b.move] first. *)
Definition mixed_world : env :=
  Env (inr tt) (inr (parser_of clean_tree)) true
      [str "b.move"; str "a.move"]
      (fun file_path =>
         if bool_decide (file_path = str "move_test_files/b.move")
         then inl OSError else inr source_text).

(** ** Theorems *)

(** Decides a closed decidable proposition by evaluation. *)
Ltac by_compute := refine (bool_decide_unpack _ _); vm_compute; exact I.

(** *** Strings: sanity checks of the model *)

Example utf8_decode_glyph : utf8_decode [xe2; x94; x9c] = Some [9500%N].
Proof. reflexivity. Qed.

Example utf8_decode_overlong : utf8_decode [xc0; x80] = None.
Proof. reflexivity. Qed.

Example utf8_decode_surrogate : utf8_decode [xed; xa0; x80] = None.
Proof. reflexivity. Qed.

Example utf8_round_trip :
  utf8_encode [9500; 97; 233; 128512]%N ≫= utf8_decode =
  Some [9500; 97; 233; 128512]%N.
Proof. reflexivity. Qed.

Example splitlines_mixed :
  splitlines ([97; 10; 98; 13; 10; 99; 10; 10]%N) =
  [[97]; [98]; [99]; []]%N.
Proof. reflexivity. Qed.

Example basename_path :
  basename (str "move_test_files/a.move") = str "a.move".
Proof. reflexivity. Qed.

Example sorted_names :
  sorted [str "b"; str "a"; str "ab"; str "B"] =
  [str "B"; str "a"; str "ab"; str "b"].
Proof. reflexivity. Qed.

(** *** ErrorLocator *)

Lemma fold_left_app_acc {A B} (f : B -> list A) (l : list B) (acc : list A) :
  fold_left (fun acc x => acc ++ f x) l acc = acc ++ flat_map f l.
Proof.
  revert acc. induction l as [|x l IH]; intros acc; simpl.
  - by rewrite app_nil_r.
  - by rewrite IH, app_assoc.
Qed.

Lemma find_errors_unfold n :
  find_errors n =
  (if is_error n then [n] else []) ++ flat_map find_errors (children n).
Proof.
  destruct n as [ty tx sp ep cs he]. unfold is_error. simpl.
  rewrite fold_left_app_acc. by destruct (bool_decide _).
Qed.

Lemma find_errors_filter n :
  find_errors n = List.filter is_error (preorder n).
Proof.
  induction n as [ty tx sp ep cs he IH] using node_ind.
  rewrite find_errors_unfold. cbn [preorder List.filter children].
  assert (flat_map find_errors cs =
          List.filter is_error (flat_map preorder cs)) as ->.
  { induction IH as [|c cs' Hc _ IHcs]; [done|].
    cbn [flat_map]. rewrite List.filter_app. by rewrite Hc, IHcs. }
  by destruct (is_error _).
Qed.

Lemma is_error_true n : is_error n = true ↔ type n = ERROR.
Proof. unfold is_error. apply bool_decide_eq_true. Qed.

Lemma elem_of_find_errors n root :
  n ∈ find_errors root ↔ n ∈ preorder root ∧ type n = ERROR.
Proof.
  rewrite find_errors_filter, !list_elem_of_In, List.filter_In.
  by rewrite is_error_true.
Qed.

(** C1. [find_errors] returns exactly the nodes tagged ERROR, in
    pre-order: it is the pre-order sequence of the tree filtered by the
    tag.  It is empty exactly when no node carries the tag, and an ERROR
    root does not stop the search: the errors of the children follow it. *)
Theorem find_errors_preorder (root : node) :
  find_errors root = List.filter is_error (preorder root)
  ∧ (∀ n, n ∈ find_errors root ↔ n ∈ preorder root ∧ type n = ERROR)
  ∧ (find_errors root = [] ↔ ∀ n, n ∈ preorder root → type n ≠ ERROR)
  ∧ find_errors root =
      (if is_error root then [root] else [])
        ++ flat_map find_errors (children root).
Proof.
  split; [apply find_errors_filter|].
  split; [intros n; apply elem_of_find_errors|].
  split; [|apply find_errors_unfold].
  split.
  - intros Hnil n Hn Hty.
    assert (n ∈ find_errors root) as Hin by by apply elem_of_find_errors.
    rewrite Hnil in Hin. by apply not_elem_of_nil in Hin.
  - intros Hnone. destruct (find_errors root) as [|n l] eqn:E; [done|].
    assert (n ∈ find_errors root) as Hin by (rewrite E; left).
    apply elem_of_find_errors in Hin as [Hin Hty]. by destruct (Hnone n Hin).
Qed.

Lemma find_errors_nonempty root :
  find_errors root ≠ [] ↔ ∃ n, n ∈ preorder root ∧ type n = ERROR.
Proof.
  split.
  - destruct (find_errors root) as [|n l] eqn:E; [done|]. intros _.
    assert (n ∈ find_errors root) as Hin by (rewrite E; left).
    exists n. by apply elem_of_find_errors.
  - intros (n & Hn & Hty) Hnil.
    assert (n ∈ find_errors root) as Hin by by apply elem_of_find_errors.
    rewrite Hnil in Hin. by apply not_elem_of_nil in Hin.
Qed.

Lemma flags_sound_error root n :
  flags_sound root = true → n ∈ preorder root → type n = ERROR →
  has_error root = true.
Proof.
  revert n. induction root as [ty tx sp ep cs he IH] using node_ind.
  intros n Hsound Hn Hty.
  cbn [flags_sound children has_error] in *.
  apply andb_true_iff in Hsound as [Hflag Hsub].
  cbn [preorder children] in Hn.
  destruct he; [done|]. exfalso.
  destruct (is_error (Node ty tx sp ep cs false)) eqn:Herr; [done|].
  cbn [orb] in Hflag.
  apply elem_of_cons in Hn as [->|Hn].
  { apply is_error_true in Hty. congruence. }
  apply list_elem_of_In, in_flat_map in Hn as (c & Hc & Hn).
  assert (existsb has_error cs = true) as Hex; [|by rewrite Hex in Hflag].
  apply existsb_exists. exists c. split; [done|].
  rewrite Forall_forall in IH. apply list_elem_of_In in Hc.
  apply (IH c Hc n); [|by apply list_elem_of_In|done].
  rewrite forallb_forall in Hsub. by apply Hsub, list_elem_of_In.
Qed.

(** C2 (as amended).  [find_errors] finds something exactly when some node
    of the tree is tagged ERROR.  When the flags of the tree follow the
    contract of the parser, this implies that the root is flagged. *)
Theorem find_errors_flagged (root : node) :
  flags_sound root = true →
  (find_errors root ≠ [] ↔ ∃ n, n ∈ preorder root ∧ type n = ERROR)
  ∧ (find_errors root ≠ [] → has_error root = true).
Proof.
  intros Hsound. split; [apply find_errors_nonempty|].
  intros Hfound. apply find_errors_nonempty in Hfound as (n & Hn & Hty).
  by apply (flags_sound_error root n).
Qed.

Lemma find_errors_flagged_witness :
  (find_errors (root_node faulty_tree) ≠ [] ↔
   ∃ n, n ∈ preorder (root_node faulty_tree) ∧ type n = ERROR)
  ∧ has_error (root_node faulty_tree) = true.
Proof.
  destruct (find_errors_flagged (root_node faulty_tree)) as [Hiff Hflag].
  - reflexivity.
  - split; [exact Hiff|]. apply Hflag. by vm_compute.
Defined.

(** C2 (as stated) fails.  In the tree of an unterminated block the flags
    follow the contract and the root is flagged, yet no node is tagged
    ERROR: [find_errors] returns nothing, the probe reports 0 error nodes
    and fails the file. *)
Lemma has_error_without_error_node :
  flags_sound (root_node missing_token_tree) = true
  ∧ has_error (root_node missing_token_tree) = true
  ∧ find_errors (root_node missing_token_tree) = []
  ∧ ¬ (has_error (root_node missing_token_tree) = true ↔
       find_errors (root_node missing_token_tree) ≠ [])
  ∧ FoundErrors 0 ∈
      (test_move_file (world missing_token_tree []) (str "a.move")
                      (parser_of missing_token_tree)).1
  ∧ (test_move_file (world missing_token_tree []) (str "a.move")
                    (parser_of missing_token_tree)).2 = inr false.
Proof.
  split; [reflexivity|]. split; [reflexivity|]. split; [by vm_compute|].
  split; [|split; [|by vm_compute]].
  - intros [Hfound _]. by apply Hfound.
  - apply list_elem_of_In. vm_compute.
    repeat (first [left; reflexivity | right]).
Qed.

(** *** Capped renderings *)

Lemma escape_newlines_id (s : pystr) :
  10%N ∉ s → escape_newlines s = s.
Proof.
  induction s as [|c s IH]; [done|]. intros Hnot.
  apply not_elem_of_cons in Hnot as [Hc Hs]. cbn.
  destruct (N.eqb_spec c 10) as [->|_]; [done|].
  cbn. f_equal. by apply IH.
Qed.

Lemma line_preview_law : truncation_law 45 line_preview.
Proof.
  intros s. unfold line_preview, slice_to. split; intros Hlen.
  - by apply Nat.ltb_lt in Hlen as ->.
  - assert ((45 <? length s) = false) as -> by (apply Nat.ltb_ge; lia).
    apply firstn_all2. lia.
Qed.

(** C3 (as amended).  The code preview obeys the truncation law with cap
    45.  The error excerpt is the first 30 characters of the text and
    never carries a marker.  A node text with no line feed among its first
    50 characters is cut to 50 characters followed by the marker when it
    is longer than 50, and reproduced as it is when it is shorter than
    50. *)
Theorem capped_renderings :
  truncation_law 45 line_preview
  ∧ (∀ s : pystr,
       error_text_of s = firstn 30 s ∧ (length s ≤ 30 → error_text_of s = s))
  ∧ (∀ s : pystr,
       10%N ∉ firstn 50 s →
       (50 < length s → text_preview_of s = firstn 50 s ++ ellipsis) ∧
       (length s < 50 → text_preview_of s = s)).
Proof.
  split; [apply line_preview_law|]. split.
  - intros s. unfold error_text_of, slice_to. split; [done|].
    intros Hlen. apply firstn_all2. lia.
  - intros s Hnl. unfold text_preview_of, slice_to.
    rewrite (escape_newlines_id _ Hnl), length_firstn. split; intros Hlen.
    + by replace (Nat.min 50 (length s)) with 50 by lia.
    + assert ((Nat.min 50 (length s) =? 50) = false) as ->
        by (apply Nat.eqb_neq; lia).
      apply firstn_all2. lia.
Qed.

Lemma capped_renderings_witness :
  line_preview (repeat 97%N 46) = repeat 97%N 45 ++ ellipsis
  ∧ line_preview (repeat 97%N 45) = repeat 97%N 45
  ∧ error_text_of (repeat 97%N 31) = repeat 97%N 30
  ∧ text_preview_of (repeat 97%N 51) = repeat 97%N 50 ++ ellipsis
  ∧ text_preview_of (repeat 97%N 49) = repeat 97%N 49.
Proof.
  destruct capped_renderings as (Hline & Herr & Htext).
  split; [apply (Hline (repeat 97%N 46)); simpl; lia|].
  split; [apply (Hline (repeat 97%N 45)); simpl; lia|].
  split; [apply (Herr (repeat 97%N 31))|].
  split.
  - apply (Htext (repeat 97%N 51)); [by_compute|simpl; lia].
  - apply (Htext (repeat 97%N 49)); [by_compute|simpl; lia].
Defined.

(** C3 (as stated) fails.  An error text of 31 characters is cut to 30
    with no marker, and a node text of exactly 50 characters is followed by
    the marker although nothing was cut. *)
Lemma capped_renderings_counterexample :
  30 < length (repeat 97%N 31)
  ∧ error_text_of (repeat 97%N 31) = repeat 97%N 30
  ∧ length (repeat 97%N 50) ≤ 50
  ∧ text_preview_of (repeat 97%N 50) = repeat 97%N 50 ++ ellipsis
  ∧ ¬ (truncation_law 50 text_preview_of
       ∧ truncation_law 30 error_text_of
       ∧ truncation_law 45 line_preview).
Proof.
  split; [simpl; lia|]. split; [reflexivity|].
  split; [simpl; lia|]. split; [reflexivity|].
  intros (_ & Herr & _).
  destruct (Herr (repeat 97%N 31)) as [Hcut _].
  specialize (Hcut ltac:(simpl; lia)). by vm_compute in Hcut.
Qed.

(** *** TreeWalker: the census *)

Lemma visit_children_fold (cs : list node) :
  Forall (fun c => ∀ m, visit c m = fold_left bump (map type (preorder c)) m) cs →
  ∀ m, fold_left (fun type_counts child => visit child type_counts) cs m =
       fold_left bump (map type (flat_map preorder cs)) m.
Proof.
  induction 1 as [|c cs Hc _ IH]; intros m; [done|].
  cbn [fold_left flat_map]. by rewrite IH, Hc, map_app, fold_left_app.
Qed.

Lemma visit_fold (n : node) (m : gmap pystr nat) :
  visit n m = fold_left bump (map type (preorder n)) m.
Proof.
  revert m. induction n as [ty tx sp ep cs he IH] using node_ind. intros m.
  cbn [visit preorder children type map fold_left].
  by apply visit_children_fold.
Qed.

Lemma total_count_bump (m : gmap pystr nat) (ty : pystr) :
  total_count (bump m ty) = S (total_count m).
Proof.
  unfold total_count, bump. destruct (m !! ty) as [v|] eqn:E; simpl.
  - rewrite <- insert_delete_eq.
    rewrite map_fold_insert_L;
      [|intros; lia|by rewrite lookup_delete_eq].
    rewrite (map_fold_delete_L _ _ ty v m); [lia|intros; lia|done].
  - rewrite map_fold_insert_L; [done|intros; lia|done].
Qed.

Lemma total_count_fold (tags : list pystr) (m : gmap pystr nat) :
  total_count (fold_left bump tags m) = length tags + total_count m.
Proof.
  revert m. induction tags as [|ty tags IH]; intros m; [done|].
  cbn [fold_left length]. rewrite IH, total_count_bump. lia.
Qed.

Lemma lookup_bump (m : gmap pystr nat) (ty k : pystr) :
  bump m ty !! k =
  if decide (ty = k) then Some (default 0 (m !! k) + 1) else m !! k.
Proof.
  unfold bump. rewrite lookup_insert. by destruct (decide (ty = k)) as [->|].
Qed.

Lemma lookup_fold_bump (tags : list pystr) (m : gmap pystr nat) (k : pystr) :
  fold_left bump tags m !! k =
  if occurrences k tags =? 0 then m !! k
  else Some (default 0 (m !! k) + occurrences k tags).
Proof.
  revert m. induction tags as [|ty tags IH]; intros m; [done|].
  cbn [fold_left]. rewrite IH, lookup_bump. unfold occurrences.
  cbn [List.filter]. destruct (decide (ty = k)) as [->|Hne].
  - rewrite bool_decide_eq_true_2 by done. cbn [length default].
    destruct (Nat.eqb_spec (length (List.filter
      (fun ty' => bool_decide (ty' = k)) tags)) 0) as [->|_]; cbn.
    + done.
    + f_equal. lia.
  - by rewrite bool_decide_eq_false_2 by done.
Qed.

Lemma node_count_preorder (n : node) : node_count n = length (preorder n).
Proof.
  induction n as [ty tx sp ep cs he IH] using node_ind.
  cbn [node_count preorder children length]. f_equal.
  induction IH as [|c cs Hc _ IHcs]; [done|].
  cbn [map flat_map list_sum fold_right].
  rewrite length_app, Hc. f_equal. exact IHcs.
Qed.

Lemma occurrences_zero (k : pystr) (tags : list pystr) :
  occurrences k tags = 0 ↔ k ∉ tags.
Proof.
  unfold occurrences. induction tags as [|ty tags IH]; cbn.
  - split; [intros _; apply not_elem_of_nil|done].
  - rewrite not_elem_of_cons. case_bool_decide as Hty; cbn.
    + split; [done|]. intros [Hne _]. by destruct Hne.
    + rewrite IH. split; [by split; [congruence|]|by intros [_ ?]].
Qed.

(** C4. The census is total on every finite tree; it bumps one counter
    per node, following the pre-order sequence of the tree (each node
    once, before its children, children left to right), and the counts it
    stores add up to the number of nodes of the tree. *)
Theorem census_counts_every_node (root : node) :
  count_node_types root = fold_left bump (map type (preorder root)) ∅
  ∧ total_count (count_node_types root) = length (preorder root)
  ∧ total_count (count_node_types root) = node_count root.
Proof.
  unfold count_node_types. rewrite node_count_preorder, visit_fold.
  split; [done|].
  rewrite total_count_fold, length_map.
  unfold total_count. rewrite map_fold_empty. lia.
Qed.

(** C10. The keys of the census are exactly the type tags that occur in
    the tree, each stored count is the number of nodes with that tag, and
    no stored count is zero. *)
Theorem census_keys_and_counts (root : node) :
  dom (count_node_types root) = list_to_set (map type (preorder root))
  ∧ map_Forall (fun _ count => 1 ≤ count) (count_node_types root)
  ∧ map_Forall
      (fun ty count => count = occurrences ty (map type (preorder root)))
      (count_node_types root).
Proof.
  unfold count_node_types. rewrite visit_fold.
  set (tags := map type (preorder root)).
  assert (∀ k, fold_left bump tags ∅ !! k =
               if occurrences k tags =? 0 then None
               else Some (occurrences k tags)) as Hlook.
  { intros k. by rewrite lookup_fold_bump, lookup_empty. }
  split; [|split].
  - apply set_eq. intros k.
    rewrite elem_of_dom, elem_of_list_to_set, Hlook.
    destruct (Nat.eqb_spec (occurrences k tags) 0) as [Hz|Hnz].
    + apply occurrences_zero in Hz. split; [by intros [? ?]|done].
    + split; [|by eauto]. intros _.
      destruct (decide (k ∈ tags)) as [|Hnot]; [done|].
      by apply occurrences_zero in Hnot.
  - intros k v. rewrite Hlook.
    destruct (Nat.eqb_spec (occurrences k tags) 0); [done|].
    intros [= <-]. lia.
  - intros k v. rewrite Hlook.
    destruct (Nat.eqb_spec (occurrences k tags) 0); [done|].
    by intros [= <-].
Qed.

(** *** Output and exceptions *)

Lemma mbind_unfold {A B} (m : M A) (k : A → M B) :
  m ≫= k =
  match m.2 with
  | inl ex => (m.1, inl ex)
  | inr a => (m.1 ++ (k a).1, (k a).2)
  end.
Proof.
  destruct m as [out [ex|a]]; [reflexivity|].
  cbn. destruct (k a). reflexivity.
Qed.

Lemma mbind_ok {A B} (m : M A) (k : A → M B) out a :
  m = (out, inr a) → m ≫= k = (out ++ (k a).1, (k a).2).
Proof. intros ->. by rewrite mbind_unfold. Qed.

Lemma mbind_fault {A B} (m : M A) (k : A → M B) out ex :
  m = (out, inl ex) → m ≫= k = (out, inl ex).
Proof. intros ->. by rewrite mbind_unfold. Qed.

Lemma mbind_assoc {A B C} (m : M A) (k : A → M B) (h : B → M C) :
  (m ≫= k) ≫= h = m ≫= (fun a => k a ≫= h).
Proof.
  destruct m as [out [ex|a]]; [reflexivity|].
  rewrite (mbind_unfold (out, inr a)); cbn [fst snd].
  destruct (k a) as [out' [ex|b]] eqn:E.
  - by rewrite (mbind_unfold (out, inr a)); cbn [fst snd]; rewrite E.
  - rewrite (mbind_unfold (out, inr a)); cbn [fst snd]; rewrite E.
    rewrite !mbind_unfold; cbn [fst snd].
    destruct (h b) as [out'' r]. cbn [fst snd]. by rewrite app_assoc.
Qed.

Lemma mbind_ret_r (m : M unit) : m ≫= (fun _ => ret tt) = m.
Proof.
  destruct m as [out [ex|[]]]; [reflexivity|].
  rewrite mbind_unfold. cbn. by rewrite app_nil_r.
Qed.

Lemma print_then {B} (ev : event) (k : M B) :
  (print ev ;; k) = (ev :: k.1, k.2).
Proof. by rewrite mbind_unfold. Qed.

Lemma for_each_cons {A} (x : A) (l : list A) (body : A → M unit) :
  for_each (x :: l) body = (body x ;; for_each l body).
Proof. done. Qed.

Lemma for_each_app {A} (l1 l2 : list A) (body : A → M unit) :
  for_each (l1 ++ l2) body = (for_each l1 body ;; for_each l2 body).
Proof.
  induction l1 as [|x l1 IH].
  - cbn [app]. destruct (for_each l2 body) as [out r]. by destruct r.
  - cbn [app]. by rewrite !for_each_cons, IH, mbind_assoc.
Qed.

Lemma for_each_print {A} (l : list A) (f : A → event) :
  for_each l (fun x => print (f x)) = (map f l, inr tt).
Proof.
  induction l as [|x l IH]; [done|].
  by rewrite for_each_cons, print_then, IH.
Qed.

(** A loop whose body cannot raise does not raise. *)
Lemma for_each_total {A} (l : list A) (body : A → M unit) :
  (∀ x, (body x).2 = inr tt) → (for_each l body).2 = inr tt.
Proof.
  intros Hbody. induction l as [|x l IH]; [done|].
  rewrite for_each_cons, mbind_unfold, Hbody. by cbn.
Qed.

(** *** TreeWalker: the structural render *)

Lemma analyze_node_visited (n : node) (depth max_depth : nat) :
  analyze_node n depth max_depth =
  for_each (visited n depth max_depth)
           (fun entry => print_node_line entry.1 entry.2).
Proof.
  revert depth. induction n as [ty tx sp ep cs he IH] using node_ind.
  intros depth. cbn [analyze_node visited children].
  rewrite for_each_cons. cbn [fst snd].
  assert ((if (depth <? max_depth) && (0 <? child_count (Node ty tx sp ep cs he))
           then for_each cs
                  (fun child => analyze_node child (depth + 1) max_depth)
           else ret tt) =
          for_each
            (if depth <? max_depth
             then flat_map
                    (fun child => visited child (depth + 1) max_depth) cs
             else [])
            (fun entry => print_node_line entry.1 entry.2)) as ->; [|done].
  destruct (depth <? max_depth); cbn [andb]; [|done].
  assert (for_each cs (fun child => analyze_node child (depth + 1) max_depth) =
          for_each (flat_map (fun child => visited child (depth + 1) max_depth) cs)
                   (fun entry => print_node_line entry.1 entry.2)) as Hloop.
  { induction IH as [|c cs' Hc _ IHcs]; [done|].
    cbn [flat_map]. by rewrite for_each_cons, for_each_app, Hc, IHcs. }
  unfold child_count. cbn [children].
  destruct cs as [|c cs']; [done|]. exact Hloop.
Qed.

Lemma node_line_decodable (n : node) (depth : nat) :
  decodable n → ∃ line, node_line n depth = inr line.
Proof.
  unfold decodable, node_line, text_preview, decode.
  destruct (text n) as [[|b raw]|]; [by eauto| |by eauto].
  intros [s ->]. by eauto.
Qed.

Lemma node_line_fault (n : node) (depth : nat) :
  ¬ decodable n → node_line n depth = inl UnicodeDecodeError.
Proof.
  unfold decodable, node_line, text_preview, decode.
  destruct (text n) as [[|b raw]|]; [by intros []| |by intros []].
  destruct (utf8_decode (b :: raw)); [|done]. intros []. by eauto.
Qed.

(** The render prints one line per node it reaches, up to the first node
    whose text cannot be decoded; there it stops with the decoding fault. *)
Lemma render_until_fault (l before after : list (node * nat)) bad :
  l = before ++ bad :: after →
  Forall (fun entry => decodable entry.1) before →
  ¬ decodable bad.1 →
  ∃ lines,
    Forall2 (fun entry line => node_line entry.1 entry.2 = inr line)
            before lines
    ∧ for_each l (fun entry => print_node_line entry.1 entry.2) =
      (map AstLine lines, inl UnicodeDecodeError).
Proof.
  intros -> Hbefore Hbad. induction Hbefore as [|x before Hx _ IH].
  - exists []. split; [constructor|]. cbn [app].
    rewrite for_each_cons. unfold print_node_line.
    by rewrite (node_line_fault _ _ Hbad).
  - destruct IH as (lines & Hlines & Hrun).
    destruct (node_line_decodable _ x.2 Hx) as [line Hline].
    exists (line :: lines). split; [by constructor|].
    cbn [app]. rewrite for_each_cons, Hrun. unfold print_node_line.
    by rewrite Hline.
Qed.

Lemma render_total (l : list (node * nat)) :
  Forall (fun entry => decodable entry.1) l →
  (for_each l (fun entry => print_node_line entry.1 entry.2)).2 = inr tt.
Proof.
  induction 1 as [|x l Hx _ IH]; [done|].
  destruct (node_line_decodable _ x.2 Hx) as [line Hline].
  rewrite for_each_cons, mbind_unfold.
  assert (print_node_line x.1 x.2 = ([AstLine line], inr tt)) as ->
    by (unfold print_node_line; by rewrite Hline).
  cbn [fst snd]. exact IH.
Qed.

(** *** Properties of every line of a log *)

Lemma log_bind {A B} (Q : event → Prop) (m : M A) (k : A → M B) :
  Forall Q m.1 → (∀ a, Forall Q (k a).1) → Forall Q (m ≫= k).1.
Proof.
  intros Hm Hk. rewrite mbind_unfold. destruct m as [out [ex|a]]; [done|].
  cbn [fst snd] in *. apply Forall_app. by split.
Qed.

Lemma log_print (Q : event → Prop) (ev : event) :
  Q ev → Forall Q (print ev).1.
Proof. intros Hev. by repeat constructor. Qed.

Lemma log_lift {A} (Q : event → Prop) (r : result A) : Forall Q (lift r).1.
Proof. constructor. Qed.

Lemma log_ret {A} (Q : event → Prop) (a : A) : Forall Q (ret a).1.
Proof. constructor. Qed.

Lemma log_for_each {A} (Q : event → Prop) (l : list A) (body : A → M unit) :
  (∀ x, Forall Q (body x).1) → Forall Q (for_each l body).1.
Proof.
  intros Hbody. induction l as [|x l IH]; [constructor|].
  rewrite for_each_cons. by apply log_bind.
Qed.

Lemma log_try_except {A} (Q : event → Prop) (m : M A) (h : exn → M A) :
  Forall Q m.1 → (∀ ex, Forall Q (h ex).1) → Forall Q (try_except m h).1.
Proof.
  intros Hm Hh. destruct m as [out [ex|a]]; [|done].
  unfold try_except. specialize (Hh ex). destruct (h ex) as [out' r].
  cbn [fst] in *. apply Forall_app. by split.
Qed.

Lemma snd_mbind {A B} (m : M A) (k : A → M B) a :
  m.2 = inr a → (m ≫= k).2 = (k a).2.
Proof. intros Hm. rewrite mbind_unfold. by rewrite Hm. Qed.

(** *** FileProbe *)

Lemma show_preview_total (code : pystr) : (show_preview code).2 = inr tt.
Proof.
  unfold show_preview.
  repeat (rewrite print_then; cbn [snd]).
  rewrite (snd_mbind _ _ tt).
  - rewrite (snd_mbind _ _ tt); [done|]. by destruct (_ <? _).
  - apply for_each_total. by intros [i line].
Qed.

Lemma test_move_file_parsed e file_path parser code source t :
  read_text e file_path = inr code →
  encode code = inr source →
  parser source = inr t →
  test_move_file e file_path parser =
  let root := root_node t in
  let branch := if has_error root then report_errors root
                else report_tree root in
  (Testing file_path :: (show_preview code).1 ++ StartParse :: branch.1 ++
     [match branch.2 with
      | inr _ => TestResult (negb (has_error root))
      | inl ex => TestException ex
      end],
   inr (match branch.2 with
        | inr _ => negb (has_error root)
        | inl _ => false
        end)).
Proof.
  intros Hread Hencode Hparse.
  unfold test_move_file, test_move_file_try.
  rewrite Hread, print_then.
  rewrite (mbind_unfold (lift _)). cbn [lift fst snd app].
  rewrite mbind_unfold, show_preview_total, print_then.
  rewrite Hencode. rewrite (mbind_unfold (lift _)). cbn [lift fst snd app].
  rewrite Hparse. rewrite (mbind_unfold (lift _)). cbn [lift fst snd app].
  rewrite mbind_unfold.
  destruct (if has_error (root_node t) then _ else _) as [out [ex|[]]];
    cbn [fst snd try_except]; rewrite !print_then;
    cbn [ret fst snd app try_except]; rewrite <- ?app_assoc; reflexivity.
Qed.

Lemma for_each_ext {A} (l : list A) (f g : A → M unit) :
  (∀ x, f x = g x) → for_each l f = for_each l g.
Proof.
  intros Hfg. induction l as [|x l IH]; [done|].
  by rewrite !for_each_cons, Hfg, IH.
Qed.

Lemma first_failure {A} (P : A → Prop) `{!∀ x, Decision (P x)} (l : list A) :
  ¬ Forall P l →
  ∃ before bad after, l = before ++ bad :: after ∧ Forall P before ∧ ¬ P bad.
Proof.
  induction l as [|x l IH]; intros Hnot.
  - by destruct Hnot.
  - destruct (decide (P x)) as [Hx|Hx].
    + destruct IH as (before & bad & after & -> & Hbefore & Hbad).
      { intros Hl. apply Hnot. by constructor. }
      exists (x :: before), bad, after. by repeat split; [constructor|].
    + by exists [], x, l.
Qed.

Lemma analyze_node_ok_iff (root : node) (depth max_depth : nat) :
  (analyze_node root depth max_depth).2 = inr tt ↔
  Forall (fun entry => decodable entry.1) (visited root depth max_depth).
Proof.
  rewrite analyze_node_visited. split; [|apply render_total].
  intros Hok.
  destruct (decide (Forall (fun entry : node * nat => decodable entry.1)
                           (visited root depth max_depth))) as [|Hnot];
    [done|].
  apply first_failure in Hnot as (before & bad & after & Hsplit & Hb & Hbad);
    [|apply _].
  destruct (render_until_fault _ _ _ _ Hsplit Hb Hbad) as (lines & _ & Hrun).
  by rewrite Hrun in Hok.
Qed.

Lemma report_tree_unfold (root : node) :
  report_tree root =
  match analyze_node root 0 2 with
  | (out, inl ex) =>
      ([ParseOk; RootType (type root); ChildCount (child_count root);
        AstHeader] ++ out, inl ex)
  | (out, inr _) =>
      ([ParseOk; RootType (type root); ChildCount (child_count root);
        AstHeader] ++ out ++ StatsHeader ::
         map (fun item => Stat item.1 item.2)
             (sorted_items le (count_node_types root)), inr tt)
  end.
Proof.
  unfold report_tree. rewrite !print_then.
  assert (for_each (sorted_items le (count_node_types root))
            (fun '(node_type, count) => print (Stat node_type count)) =
          (map (fun item => Stat item.1 item.2)
               (sorted_items le (count_node_types root)), inr tt)) as ->.
  { rewrite <- for_each_print. apply for_each_ext. by intros [ty c]. }
  rewrite mbind_unfold.
  destruct (analyze_node root 0 2) as [out [ex|[]]]; cbn [fst snd app];
    [done|]. by rewrite ?print_then.
Qed.

Lemma test_move_file_fault e file_path parser ex :
  parse_outcome e file_path parser = inl ex →
  ∃ out, test_move_file e file_path parser =
         (out ++ [TestException ex], inr false).
Proof.
  unfold parse_outcome, test_move_file, test_move_file_try.
  destruct (read_text e file_path) as [ex'|code] eqn:Hread.
  - intros [= ->]. by exists [Testing file_path].
  - rewrite print_then, (mbind_unfold (lift _)). cbn [lift fst snd app].
    rewrite mbind_unfold, show_preview_total, print_then.
    rewrite (mbind_unfold (lift _)). cbn [lift fst snd app].
    destruct (encode code) as [ex'|source] eqn:Hencode.
    + intros [= ->].
      exists (Testing file_path :: (show_preview code).1 ++ [StartParse]).
      cbn [try_except fst snd]. rewrite print_then. cbn [ret fst snd app].
      by rewrite <- !app_assoc.
    + intros Hparse. rewrite (mbind_unfold (lift _)), Hparse.
      cbn [lift fst snd app].
      exists (Testing file_path :: (show_preview code).1 ++ [StartParse]).
      cbn [try_except fst snd]. rewrite print_then. cbn [ret fst snd app].
      by rewrite <- !app_assoc.
Qed.

(** C9. When the text of a node reached by the structural render cannot be
    decoded, the render stops there with the decoding fault: the log holds
    the lines of the nodes before it and nothing for it or for the nodes
    after it.  The probe catches the fault and its verdict is fail, although
    the root has no error. *)
Theorem decode_fault_fails_probe
    (e : env) (file_path : pystr) (parser : parser) (code : pystr)
    (source : pybytes) (t : tree) (before after : list (node * nat))
    (bad : node * nat) :
  read_text e file_path = inr code →
  encode code = inr source →
  parser source = inr t →
  has_error (root_node t) = false →
  visited (root_node t) 0 2 = before ++ bad :: after →
  Forall (fun entry => decodable entry.1) before →
  ¬ decodable bad.1 →
  ∃ lines,
    Forall2 (fun entry line => node_line entry.1 entry.2 = inr line)
            before lines
    ∧ analyze_node (root_node t) 0 2 =
      (map AstLine lines, inl UnicodeDecodeError)
    ∧ test_move_file e file_path parser =
      (Testing file_path :: (show_preview code).1 ++
         [StartParse; ParseOk; RootType (type (root_node t));
          ChildCount (child_count (root_node t)); AstHeader] ++
         map AstLine lines ++ [TestException UnicodeDecodeError],
       inr false).
Proof.
  intros Hread Hencode Hparse Herr Hsplit Hbefore Hbad.
  destruct (render_until_fault _ _ _ _ Hsplit Hbefore Hbad)
    as (lines & Hlines & Hrun).
  rewrite <- analyze_node_visited in Hrun.
  exists lines. split; [done|]. split; [done|].
  rewrite (test_move_file_parsed _ _ _ _ _ _ Hread Hencode Hparse).
  cbn zeta. rewrite Herr, report_tree_unfold, Hrun. cbn [fst snd app].
  reflexivity.
Qed.

Lemma decode_fault_fails_probe_witness :
  ∃ lines,
    Forall2 (fun entry line => node_line entry.1 entry.2 = inr line)
            [(root_node undecodable_tree, 0);
             (leaf "identifier" (Some [x61]) origin, 1)] lines
    ∧ analyze_node (root_node undecodable_tree) 0 2 =
      (map AstLine lines, inl UnicodeDecodeError)
    ∧ test_move_file (world undecodable_tree []) (str "a.move")
                     (parser_of undecodable_tree) =
      (Testing (str "a.move") :: (show_preview source_text).1 ++
         [StartParse; ParseOk; RootType (str "source_file");
          ChildCount 3; AstHeader] ++
         map AstLine lines ++ [TestException UnicodeDecodeError],
       inr false).
Proof.
  apply (decode_fault_fails_probe
           (world undecodable_tree []) (str "a.move")
           (parser_of undecodable_tree) source_text
           (map byte_of_N source_text) undecodable_tree
           [(root_node undecodable_tree, 0);
            (leaf "identifier" (Some [x61]) origin, 1)]
           [(leaf "identifier" (Some [x62]) (Point 0 2), 1)]
           (leaf "identifier" (Some [xff]) (Point 0 1), 1)).
  - reflexivity.
  - vm_compute. reflexivity.
  - reflexivity.
  - vm_compute. reflexivity.
  - vm_compute. reflexivity.
  - by_compute.
  - by_compute.
Defined.

(** *** ErrorLocator: the report *)

Lemma locations_app (l1 l2 : list event) :
  locations (l1 ++ l2) = locations l1 ++ locations l2.
Proof. apply omap_app. Qed.

Lemma locations_none (log : list event) :
  Forall not_location log → locations log = [].
Proof.
  induction 1 as [|ev log Hev _ IH]; [done|].
  destruct ev; try done; exact IH.
Qed.

Lemma show_preview_no_location (code : pystr) :
  locations (show_preview code).1 = [].
Proof.
  apply locations_none. unfold show_preview.
  repeat first
    [ apply log_print; exact I
    | apply log_ret
    | apply log_for_each; intros [? ?]
    | apply log_bind; [|intros _]
    | destruct (_ <? _) ].
Qed.

Lemma report_error_shape (i : nat) (n : node) :
  ∃ rest res,
    report_error i n = (ErrorLocation i (row (start_point n) + 1)
                                        (column (start_point n) + 1) :: rest,
                        res)
    ∧ locations rest = []
    ∧ (decodable n → res = inr tt).
Proof.
  unfold report_error, decodable, error_text, decode. rewrite print_then.
  destruct (text n) as [[|b raw]|]; [by eexists [], _| |by eexists [], _].
  destruct (utf8_decode (b :: raw)) as [s|].
  - by eexists [ErrorContent _], _.
  - eexists [], _. split; [done|]. split; [done|]. by intros [? ?].
Qed.

Lemma report_loop (l : list (nat * node)) :
  let run := for_each l (fun '(i, error_node) => report_error i error_node) in
  locations run.1 `prefix_of` map location_of l
  ∧ (run.2 = inr tt → locations run.1 = map location_of l)
  ∧ (Forall (fun entry => decodable entry.2) l → run.2 = inr tt).
Proof.
  cbn zeta. induction l as [|[i n] l (IHpre & IHeq & IHok)].
  - split; [done|]. by split.
  - rewrite for_each_cons, mbind_unfold.
    destruct (report_error_shape i n) as (rest & res & -> & Hrest & Hdec).
    cbn [fst snd map].
    change (location_of (i, n))
      with (i, row (start_point n) + 1, column (start_point n) + 1).
    assert (∀ tail, locations
              (ErrorLocation i (row (start_point n) + 1)
                 (column (start_point n) + 1) :: rest ++ tail) =
            (i, row (start_point n) + 1, column (start_point n) + 1)
              :: locations tail) as Hhead.
    { intros tail. change (locations (?ev :: ?log))
        with (locations [ev] ++ locations log).
      by rewrite locations_app, Hrest. }
    destruct res as [ex|[]]; cbn [fst snd].
    + rewrite <- (app_nil_r rest), Hhead. split; [|split].
      * by apply prefix_cons, prefix_nil.
      * done.
      * intros Hall. apply Forall_cons in Hall as [Hn _].
        by specialize (Hdec Hn).
    + cbn [app]. rewrite Hhead. split; [|split].
      * by apply prefix_cons.
      * intros Hok. f_equal. by apply IHeq.
      * intros Hall. apply Forall_cons in Hall as [_ Hl]. by apply IHok.
Qed.
Lemma combine_seq_lookup {A} (l : list A) (start k : nat) (x : A) :
  l !! k = Some x →
  combine (seq start (length l)) l !! k = Some (k + start, x).
Proof.
  revert k start. induction l as [|y l IH]; intros k start Hk; [done|].
  destruct k as [|k]; cbn in *.
  - by injection Hk as ->.
  - etrans; [apply (IH k (S start) Hk)|]. do 2 f_equal. lia.
Qed.

Lemma enumerate1_lookup {A} (l : list A) (k : nat) (x : A) :
  l !! k = Some x → enumerate1 l !! k = Some (k + 1, x).
Proof. apply combine_seq_lookup. Qed.

Lemma enumerate1_length {A} (l : list A) : length (enumerate1 l) = length l.
Proof.
  unfold enumerate1. rewrite length_combine, length_seq. lia.
Qed.

Lemma enumerate1_Forall {A} (P : A → Prop) (l : list A) :
  Forall P l → Forall (fun entry => P entry.2) (enumerate1 l).
Proof.
  unfold enumerate1. generalize 1 as start.
  induction l as [|y l IH]; intros start Hl; [constructor|].
  apply Forall_cons in Hl as [Hy Hl]. cbn. constructor; [done|].
  by apply IH.
Qed.

Lemma report_errors_unfold (root : node) :
  report_errors root =
  let run := for_each (enumerate1 (firstn 3 (find_errors root)))
               (fun '(i, error_node) => report_error i error_node) in
  (ParseFailed :: FoundErrors (length (find_errors root)) :: run.1, run.2).
Proof. unfold report_errors. by rewrite !print_then. Qed.

(** C6. When the root has an error, the probe prints the number of error
    nodes that [find_errors] returns, whatever it is, and shows locations
    for the first three of them at most, in traversal order; the [k]-th
    location shown is numbered from 1 and is the start row and the start
    column of the node, each plus one.  All of the first three are shown
    when their texts can be decoded. *)
Theorem error_report (e : env) (file_path : pystr) (parser : parser) (t : tree) :
  parse_outcome e file_path parser = inr t →
  has_error (root_node t) = true →
  let error_nodes := find_errors (root_node t) in
  let shown := enumerate1 (firstn 3 error_nodes) in
  let log := (test_move_file e file_path parser).1 in
  FoundErrors (length error_nodes) ∈ log
  ∧ length shown = Nat.min 3 (length error_nodes)
  ∧ (∀ k n, firstn 3 error_nodes !! k = Some n →
            map location_of shown !! k =
            Some (k + 1, row (start_point n) + 1, column (start_point n) + 1))
  ∧ locations log `prefix_of` map location_of shown
  ∧ (Forall decodable (firstn 3 error_nodes) →
     locations log = map location_of shown).
Proof.
  intros Hout Herr. cbn zeta. unfold parse_outcome in Hout.
  destruct (read_text e file_path) as [|code] eqn:Hread; [done|].
  destruct (encode code) as [|source] eqn:Hencode; [done|].
  rewrite (test_move_file_parsed _ _ _ _ _ _ Hread Hencode Hout).
  cbn zeta. rewrite Herr, report_errors_unfold. cbn [fst snd].
  destruct (report_loop (enumerate1 (firstn 3 (find_errors (root_node t)))))
    as (Hpre & Heq & Hok).
  set (run := for_each _ _) in *.
  assert (locations
            (Testing file_path :: (show_preview code).1 ++ StartParse ::
               (ParseFailed :: FoundErrors (length (find_errors (root_node t)))
                  :: run.1) ++
               [match run.2 with
                | inl ex => TestException ex
                | inr _ => TestResult (negb true)
                end]) = locations run.1) as ->.
  { change (locations (Testing file_path :: ?log)) with (locations log).
    rewrite locations_app, show_preview_no_location. cbn [app].
    change (locations (StartParse :: ?log)) with (locations log).
    change (locations (ParseFailed :: FoundErrors ?c :: ?log))
      with (locations log).
    rewrite locations_app, (locations_none [_]), app_nil_r; [done|].
    constructor; [|constructor]. by destruct run.2. }
  split; [|split; [|split; [|split]]].
  - apply elem_of_cons; right. apply elem_of_app; right.
    apply elem_of_cons; right. apply elem_of_app; left.
    apply elem_of_cons; right. apply elem_of_cons; by left.
  - by rewrite enumerate1_length, length_firstn.
  - intros k n Hk. rewrite list_lookup_fmap.
    by rewrite (enumerate1_lookup _ _ _ Hk).
  - exact Hpre.
  - intros Hdec. apply Heq, Hok. by apply enumerate1_Forall.
Qed.

Lemma error_report_witness :
  let log := (test_move_file (world faulty_tree []) (str "a.move")
                             (parser_of faulty_tree)).1 in
  FoundErrors 4 ∈ log
  ∧ locations log = [(1, 1, 8); (2, 1, 8); (3, 3, 5)].
Proof.
  destruct (error_report (world faulty_tree []) (str "a.move")
              (parser_of faulty_tree) faulty_tree)
    as (Hcount & _ & _ & _ & Hshown).
  - reflexivity.
  - vm_compute. reflexivity.
  - split; [exact Hcount|]. apply Hshown. by_compute.
Defined.
(** *** The order on strings *)

Lemma str_leb_refl (a : pystr) : str_leb a a = true.
Proof.
  induction a as [|x a IH]; [done|]. cbn. by rewrite N.ltb_irrefl.
Qed.

Lemma str_leb_total (a b : pystr) : str_leb a b = true ∨ str_leb b a = true.
Proof.
  revert b. induction a as [|x a IH]; intros [|y b]; cbn; auto.
  destruct (N.ltb_spec x y), (N.ltb_spec y x); auto; lia.
Qed.

Lemma str_leb_antisym (a b : pystr) :
  str_leb a b = true → str_leb b a = true → a = b.
Proof.
  revert b. induction a as [|x a IH]; intros [|y b]; cbn; try done.
  destruct (N.ltb_spec x y), (N.ltb_spec y x); try done; try lia.
  intros Hab Hba. assert (x = y) as -> by lia. f_equal. by apply IH.
Qed.

Lemma str_leb_trans (a b c : pystr) :
  str_leb a b = true → str_leb b c = true → str_leb a c = true.
Proof.
  revert b c. induction a as [|x a IH]; intros [|y b] [|z c]; cbn; try done.
  destruct (N.ltb_spec x y), (N.ltb_spec y x), (N.ltb_spec y z),
    (N.ltb_spec z y), (N.ltb_spec x z), (N.ltb_spec z x);
    try done; try lia.
  apply IH.
Qed.

Global Instance str_le_total : Total str_le.
Proof. intros a b. apply str_leb_total. Qed.

Global Instance str_le_trans : Transitive str_le.
Proof. intros a b c. apply str_leb_trans. Qed.

Global Instance str_le_antisym : AntiSymm (=) str_le.
Proof. intros a b. apply str_leb_antisym. Qed.

Global Instance str_le_refl : Reflexive str_le.
Proof. intros a. apply str_leb_refl. Qed.

Lemma str_le_app (p a b : pystr) : str_le (p ++ a) (p ++ b) ↔ str_le a b.
Proof.
  unfold str_le. induction p as [|x p IH]; [done|].
  cbn. by rewrite N.ltb_irrefl.
Qed.

Global Instance bool_le_total : Total bool_le.
Proof. intros [] []; unfold bool_le; auto. Qed.

Global Instance bool_le_trans : Transitive bool_le.
Proof. intros [] [] []; unfold bool_le; auto. Qed.

Global Instance bool_le_antisym : AntiSymm (=) bool_le.
Proof. intros [] []; unfold bool_le; intros H1 H2; auto; by symmetry; auto. Qed.

Section tuple_order.
Context {V : Type} (vle : relation V).
Context `{!Total vle, !Transitive vle, !AntiSymm (=) vle}.

Global Instance tuple_le_total : Total (tuple_le vle).
Proof.
  intros [k1 v1] [k2 v2]. unfold tuple_le. cbn.
  destruct (decide (k1 = k2)) as [->|Hne].
  - destruct (total vle v1 v2); [left|right]; (split; [reflexivity|done]).
  - destruct (total str_le k1 k2); [left|right]; (split; [done|congruence]).
Qed.

Global Instance tuple_le_trans : Transitive (tuple_le vle).
Proof.
  intros [k1 v1] [k2 v2] [k3 v3]. unfold tuple_le. cbn.
  intros [H12 Hv12] [H23 Hv23]. split; [by etrans|].
  intros ->. assert (k2 = k3) as -> by by apply (anti_symm str_le).
  etrans; [by apply Hv12|by apply Hv23].
Qed.

Global Instance tuple_le_antisym : AntiSymm (=) (tuple_le vle).
Proof.
  intros [k1 v1] [k2 v2]. unfold tuple_le. cbn.
  intros [H12 Hv12] [H21 Hv21].
  assert (k1 = k2) as -> by by apply (anti_symm str_le).
  f_equal. apply (anti_symm vle); auto.
Qed.
End tuple_order.

(** A sorted list is determined by its elements. *)
Lemma sorted_perm (l1 l2 : list pystr) : l1 ≡ₚ l2 → sorted l1 = sorted l2.
Proof.
  intros Hperm. unfold sorted.
  apply (Sorted_unique str_le); [apply Sorted_merge_sort; apply _..|].
  by rewrite !merge_sort_Permutation.
Qed.

Lemma Sorted_map_prefix (p : pystr) (l : list pystr) :
  Sorted str_le l → Sorted str_le (map (app p) l).
Proof.
  induction 1 as [|x l _ IH Hhd]; [constructor|].
  cbn. constructor; [done|].
  destruct Hhd as [|y l Hxy]; constructor. by apply str_le_app.
Qed.

Lemma sorted_glob (names : list pystr) :
  sorted (map (path_join test_dir) names) =
  map (path_join test_dir) (sorted names).
Proof.
  unfold sorted, path_join.
  apply (Sorted_unique str_le).
  - apply Sorted_merge_sort; apply _.
  - assert (∀ l, map (fun name => test_dir ++ str "/" ++ name) l =
                 map (app (test_dir ++ str "/")) l) as Hmap.
    { intros l. apply map_ext. intros name. by rewrite app_assoc. }
    rewrite Hmap. apply Sorted_map_prefix, Sorted_merge_sort; apply _.
  - rewrite !merge_sort_Permutation. done.
Qed.

Lemma basename_app (acc p : pystr) :
  47%N ∉ p →
  fold_left (fun acc c => if (c =? 47)%N then [] else acc ++ [c]) p acc =
  acc ++ p.
Proof.
  revert acc. induction p as [|c p IH]; intros acc Hp; cbn.
  - by rewrite app_nil_r.
  - apply not_elem_of_cons in Hp as [Hc Hp].
    destruct (N.eqb_spec c 47) as [->|_]; [done|].
    rewrite IH by done. by rewrite <- app_assoc.
Qed.

Lemma basename_join (dir name : pystr) :
  47%N ∉ name → basename (path_join dir name) = name.
Proof.
  intros Hname. unfold basename, path_join.
  rewrite !fold_left_app. cbn [str map list_ascii_of_string fold_left].
  change (N_of_ascii "/" =? 47)%N with true. cbn iota.
  by rewrite basename_app.
Qed.
(** *** SuiteRunner *)

Create HintDb log discriminated.

Ltac log_step :=
  first
    [ solve [auto 1 with log nocore]
    | apply log_print; exact I
    | apply log_ret
    | apply log_lift
    | apply log_for_each; intros [? ?]
    | apply log_bind; [|intros ?] ].

Lemma show_preview_body (code : pystr) : Forall body_line (show_preview code).1.
Proof.
  unfold show_preview. repeat log_step. destruct (_ <? _); repeat log_step.
Qed.

#[local] Hint Resolve show_preview_body : log.

Lemma report_errors_body (root : node) :
  Forall body_line (report_errors root).1.
Proof.
  unfold report_errors. repeat log_step. unfold report_error.
  repeat log_step. destruct (text _) as [[|? ?]|]; repeat log_step.
Qed.

#[local] Hint Resolve report_errors_body : log.

Lemma report_tree_body (root : node) : Forall body_line (report_tree root).1.
Proof.
  unfold report_tree. repeat log_step.
  rewrite analyze_node_visited. unfold print_node_line. repeat log_step.
Qed.

#[local] Hint Resolve report_tree_body : log.

Lemma probe_log_shape (e : env) (file_path : pystr) (parser : parser) :
  ∃ rest,
    test_move_file e file_path parser =
    (Testing file_path :: rest, inr (verdict_of e parser file_path))
    ∧ Forall body_line rest.
Proof.
  unfold verdict_of, test_move_file. rewrite print_then. cbn [fst snd].
  eexists. split.
  - f_equal. destruct (test_move_file_try e file_path parser) as [out [ex|b]];
      [|done]. unfold try_except. by rewrite print_then.
  - apply log_try_except; [|intros ex; repeat log_step].
    unfold test_move_file_try. repeat log_step.
    destruct (has_error _); log_step.
Qed.

Lemma for_fold_cons {A S} (x : A) (l : list A) (body : S → A → M S) acc :
  for_fold (x :: l) body acc = (acc' ← body acc x; for_fold l body acc').
Proof. done. Qed.

Lemma run_tests_unfold (e : env) (parser : parser) (files : list pystr) :
  run_tests e parser files =
  (flat_map (fun file_path => (test_move_file e file_path parser).1) files,
   inr (results_of e parser files)).
Proof.
  unfold run_tests, results_of. generalize (∅ : gmap pystr bool) as acc.
  induction files as [|file_path files IH]; intros acc; [done|].
  destruct (probe_log_shape e file_path parser) as (rest & Hrun & _).
  rewrite for_fold_cons, Hrun.
  rewrite (mbind_unfold (_ ≫= _)), (mbind_unfold (_, inr _)).
  cbn [ret fst snd flat_map fold_left]. rewrite IH, app_nil_r, Hrun.
  reflexivity.
Qed.

Lemma results_nonempty (e : env) (parser : parser) (files : list pystr) :
  files ≠ [] → size (results_of e parser files) ≠ 0.
Proof.
  unfold results_of. generalize (∅ : gmap pystr bool) as acc.
  induction files as [|file_path files IH]; intros acc Hne; [done|].
  cbn [fold_left]. destruct files as [|file_path' files].
  - cbn [fold_left]. intros Hsize. apply map_size_empty_inv in Hsize.
    by apply insert_non_empty in Hsize.
  - by apply IH.
Qed.

Lemma print_summary_unfold (test_results : gmap pystr bool) :
  size test_results ≠ 0 →
  print_summary test_results =
  let total_files := Z.of_nat (size test_results) in
  let passed_files := Z.of_nat (count_passed test_results) in
  let failed_files := (total_files - passed_files)%Z in
  (SummaryHeader :: OverallHeader :: TotalFiles total_files ::
     TestsPassed passed_files :: TestsFailed failed_files ::
     SuccessRate (inject_Z passed_files / inject_Z total_files * 100)%Q ::
     DetailsHeader ::
     map (fun item => Detail item.1 item.2)
         (sorted_items bool_le test_results) ++
     [if (failed_files =? 0)%Z then AllPassed else SomeFailed failed_files;
      Completed],
   inr tt).
Proof.
  intros Hsize. unfold print_summary, true_div. cbn zeta.
  destruct (Z.eqb_spec (Z.of_nat (size test_results)) 0) as [|_]; [lia|].
  rewrite !print_then. rewrite (mbind_unfold (lift _)). cbn [lift fst snd app].
  rewrite !print_then. cbn [fst snd].
  assert (for_each (sorted_items bool_le test_results)
            (fun '(filename, success) => print (Detail filename success)) =
          (map (fun item => Detail item.1 item.2)
               (sorted_items bool_le test_results), inr tt)) as ->.
  { rewrite <- for_each_print. apply for_each_ext. by intros [? ?]. }
  rewrite mbind_unfold. cbn [fst snd].
  by destruct (_ =? 0)%Z; rewrite mbind_unfold.
Qed.
Lemma sorted_nonempty (l : list pystr) : l ≠ [] → sorted l ≠ [].
Proof.
  intros Hl Hs. apply Hl, Permutation_nil_r.
  rewrite <- Hs. unfold sorted. by rewrite merge_sort_Permutation.
Qed.

Lemma lift_ok_then {A B} (a : A) (k : A → M B) : lift (inr a) ≫= k = k a.
Proof. rewrite mbind_unfold. cbn. by destruct (k a). Qed.

(** What a run prints, case by case. *)
Lemma main_unfold (e : env) :
  main e =
  match import_modules e with
  | inl ex => ([Banner; handler_line ex], inr tt)
  | inr _ =>
      match create_parser e with
      | inl ex => ([Banner; Initializing; handler_line ex], inr tt)
      | inr parser =>
          if negb (dir_exists e)
          then ([Banner; Initializing; ParserCreated; LanguageName; NoDir],
                inr tt)
          else
            match dir_matches e with
            | [] => ([Banner; Initializing; ParserCreated; LanguageName;
                      NoFiles], inr tt)
            | _ :: _ =>
                let move_files := glob_move e in
                let files := sorted move_files in
                ([Banner; Initializing; ParserCreated; LanguageName;
                  Found (length move_files)] ++
                 map (fun entry => Listed entry.1 (basename entry.2))
                     (enumerate1 move_files) ++
                 StartTests ::
                 flat_map (fun file_path =>
                             (test_move_file e file_path parser).1) files ++
                 (print_summary (results_of e parser files)).1,
                 inr tt)
            end
      end
  end.
Proof.
  unfold main, main_try.
  destruct (import_modules e) as [ex|[]]; [destruct ex; reflexivity|].
  destruct (create_parser e) as [ex|parser]; [destruct ex; reflexivity|].
  destruct (dir_exists e); [|reflexivity].
  destruct (dir_matches e) as [|name names] eqn:Hnames.
  { unfold glob_move. rewrite Hnames. reflexivity. }
  assert (glob_move e ≠ []) as Hfiles
    by (unfold glob_move; by rewrite Hnames).
  assert ((length (glob_move e) =? 0) = false) as ->
    by (apply Nat.eqb_neq; by destruct (glob_move e)).
  cbn [negb].
  assert (for_each (enumerate1 (glob_move e))
            (fun '(i, file_path) => print (Listed i (basename file_path))) =
          (map (fun entry => Listed entry.1 (basename entry.2))
               (enumerate1 (glob_move e)), inr tt)) as ->.
  { rewrite <- for_each_print. apply for_each_ext. by intros [? ?]. }
  rewrite !lift_ok_then, run_tests_unfold.
  rewrite (mbind_unfold (_, inr (results_of _ _ _))). cbn [fst snd].
  rewrite print_summary_unfold
    by by apply results_nonempty, sorted_nonempty.
  cbn zeta. cbn [fst snd]. rewrite !print_then. cbn [fst snd].
  rewrite (mbind_unfold (map _ _, _)). cbn [fst snd try_except app].
  rewrite <- ?app_assoc. reflexivity.
Qed.
Lemma probes_lines (e : env) (parser : parser) (files : list pystr) ev :
  ev ∈ flat_map (fun file_path => (test_move_file e file_path parser).1) files →
  (∃ file_path, ev = Testing file_path) ∨ body_line ev.
Proof.
  intros Hev. apply list_elem_of_In, in_flat_map in Hev as (f & _ & Hev).
  apply list_elem_of_In in Hev.
  destruct (probe_log_shape e f parser) as (rest & Hrun & Hrest).
  rewrite Hrun in Hev. cbn [fst] in Hev. apply elem_of_cons in Hev as [->|Hev]; [by eauto|].
  right. rewrite Forall_forall in Hrest. by apply Hrest.
Qed.

(** Closes a goal with a hypothesis [H : ev ∈ [ev1; ...; evn]] in which
    [ev] is none of the listed lines. *)
Ltac absurd_member H :=
  repeat (apply elem_of_cons in H as [H|H]; [discriminate H|]);
  by apply elem_of_nil in H.

(** C7. When the directory is absent or holds no matching file, the run
    ends normally after reporting it: no line of a probe and no line of
    the summary is printed.  Whenever a run prints the total of the
    summary, that total is at least 1, the division by it is defined and
    the success rate is printed. *)
Theorem discovery_guard (e : env) :
  ((dir_exists e = false ∨ dir_matches e = []) →
   (main e).2 = inr tt
   ∧ Forall abort_line (main e).1
   ∧ ∀ parser, import_modules e = inr tt → create_parser e = inr parser →
       (main e).1 = [Banner; Initializing; ParserCreated; LanguageName;
                     if dir_exists e then NoFiles else NoDir])
  ∧ (∀ total, TotalFiles total ∈ (main e).1 →
       (1 ≤ total)%Z
       ∧ ∃ passed ratio,
           true_div passed total = inr ratio
           ∧ SuccessRate (ratio * 100)%Q ∈ (main e).1).
Proof.
  rewrite main_unfold. split.
  - intros Habort.
    destruct (import_modules e) as [ex|[]].
    { split; [done|]. split; [|done]. by destruct ex; repeat constructor. }
    destruct (create_parser e) as [ex|parser].
    { split; [done|]. split; [|done]. by destruct ex; repeat constructor. }
    destruct (dir_exists e); cbn [negb].
    + destruct Habort as [Hdir | ->]; [done|].
      split; [done|]. split; [by repeat constructor|done].
    + split; [done|]. split; [by repeat constructor|done].
  - intros total Htotal.
    destruct (import_modules e) as [ex|[]].
    { cbn in Htotal. destruct ex; absurd_member Htotal. }
    destruct (create_parser e) as [ex|parser].
    { cbn in Htotal. destruct ex; absurd_member Htotal. }
    destruct (dir_exists e); cbn [negb] in *; [|absurd_member Htotal].
    destruct (dir_matches e) as [|name names] eqn:Hnames;
      [absurd_member Htotal|].
    cbn zeta in *. cbn [fst] in *.
    assert (glob_move e ≠ []) as Hfiles
      by (unfold glob_move; by rewrite Hnames).
    pose proof (results_nonempty e parser _ (sorted_nonempty _ Hfiles))
      as Hsize.
    rewrite (print_summary_unfold _ Hsize) in *. cbn zeta in *.
    cbn [fst] in *.
    set (results := results_of e parser (sorted (glob_move e))) in *.
    assert (total = Z.of_nat (size results)) as ->.
    { apply elem_of_app in Htotal as [Hpre|Htotal]; [absurd_member Hpre|].
      apply elem_of_app in Htotal as [Hlist|Htotal].
      { by apply list_elem_of_fmap in Hlist as (? & ? & _). }
      apply elem_of_cons in Htotal as [?|Htotal]; [done|].
      apply elem_of_app in Htotal as [Hprobe|Hsum].
      { by apply probes_lines in Hprobe as [[? ?]|?]. }
      do 2 (apply elem_of_cons in Hsum as [?|Hsum]; [done|]).
      apply elem_of_cons in Hsum as [Heq|Hsum]; [by injection Heq|].
      do 4 (apply elem_of_cons in Hsum as [?|Hsum]; [done|]).
      apply elem_of_app in Hsum as [Hdet|Hend].
      - by apply list_elem_of_fmap in Hdet as (? & ? & _).
      - destruct (_ =? 0)%Z; absurd_member Hend. }
    split; [lia|].
    eexists (Z.of_nat (count_passed results)), _. split.
    + unfold true_div.
      destruct (Z.eqb_spec (Z.of_nat (size results)) 0) as [|_]; [lia|done].
    + rewrite !elem_of_app. do 2 right. rewrite elem_of_cons, elem_of_app.
      do 2 right. do 5 (apply elem_of_cons; right). apply elem_of_cons.
      by left.
Qed.
(** Finds a line in a closed log. *)
Ltac find_member :=
  apply list_elem_of_In; vm_compute;
  repeat (first [left; reflexivity | right]).

Lemma discovery_guard_witness :
  (main (world clean_tree [])).1 =
    [Banner; Initializing; ParserCreated; LanguageName; NoFiles]
  ∧ ∃ passed ratio,
      true_div passed 2 = inr ratio
      ∧ SuccessRate (ratio * 100)%Q ∈ (main mixed_world).1.
Proof.
  split.
  - destruct (discovery_guard (world clean_tree [])) as [Habort _].
    destruct (Habort (or_intror eq_refl)) as (_ & _ & Hlog).
    apply (Hlog (parser_of clean_tree)); reflexivity.
  - destruct (discovery_guard mixed_world) as [_ Hguard].
    apply (Hguard 2%Z). find_member.
Defined.

(** *** SuiteRunner: the order of the files *)

Lemma map_to_list_fold_insert {A} (key : A → pystr) (val : A → bool)
    (l : list A) (acc : gmap pystr bool) :
  NoDup (map key l) →
  (∀ x, x ∈ l → acc !! key x = None) →
  map_to_list (fold_left (fun m x => <[key x := val x]> m) l acc) ≡ₚ
  map (fun x => (key x, val x)) l ++ map_to_list acc.
Proof.
  revert acc. induction l as [|x l IH]; intros acc Hdup Hfresh; [done|].
  cbn [map fold_left] in *. apply NoDup_cons in Hdup as [Hx Hdup].
  rewrite IH; [|done|].
  - rewrite map_to_list_insert by (apply Hfresh; left).
    symmetry. apply Permutation_middle.
  - intros y Hy. rewrite lookup_insert_ne; [apply Hfresh; by right|].
    intros Heq. apply Hx. rewrite Heq. apply list_elem_of_fmap. by exists y.
Qed.

Lemma Sorted_items {V} (vle : relation V) (val : pystr → V)
    (names : list pystr) :
  Sorted str_le names → NoDup names →
  Sorted (tuple_le vle) (map (fun name => (name, val name)) names).
Proof.
  induction 1 as [|x l _ IH Hhd]; intros Hdup; [constructor|].
  apply NoDup_cons in Hdup as [Hx Hdup]. cbn [map].
  constructor; [by apply IH|].
  destruct Hhd as [|y l Hxy]; constructor. split; [done|].
  cbn. intros ->. destruct Hx. left.
Qed.

Lemma sorted_items_results (e : env) (parser : parser) (names : list pystr) :
  NoDup names → Forall (fun name => 47%N ∉ name) names →
  sorted_items bool_le
    (results_of e parser (map (path_join test_dir) (sorted names))) =
  map (fun name => (name, verdict_of e parser (path_join test_dir name)))
      (sorted names).
Proof.
  intros Hdup Hslash. unfold sorted_items.
  assert (sorted names ≡ₚ names) as Hperm
    by apply merge_sort_Permutation.
  assert (map (fun file_path =>
                 (basename file_path, verdict_of e parser file_path))
              (map (path_join test_dir) (sorted names)) =
          map (fun name =>
                 (name, verdict_of e parser (path_join test_dir name)))
              (sorted names)) as Hkv.
  { rewrite map_map. apply map_ext_in. intros name Hname. cbn beta.
    rewrite basename_join; [done|].
    rewrite Forall_forall in Hslash. apply Hslash.
    rewrite <- Hperm. by apply list_elem_of_In. }
  apply (Sorted_unique (tuple_le bool_le)).
  - apply Sorted_merge_sort; apply _.
  - apply Sorted_items; [apply Sorted_merge_sort; apply _|by rewrite Hperm].
  - rewrite merge_sort_Permutation. unfold results_of.
    rewrite (map_to_list_fold_insert basename (verdict_of e parser)).
    + by rewrite map_to_list_empty, app_nil_r, Hkv.
    + apply (f_equal (map fst)) in Hkv. rewrite !map_map in Hkv.
      cbn [fst] in Hkv. rewrite map_map, Hkv, map_id. by rewrite Hperm.
    + intros. apply lookup_empty.
Qed.

Lemma probed_app (l1 l2 : list event) :
  probed (l1 ++ l2) = probed l1 ++ probed l2.
Proof. apply omap_app. Qed.

Lemma details_app (l1 l2 : list event) :
  details (l1 ++ l2) = details l1 ++ details l2.
Proof. apply omap_app. Qed.

Lemma probed_body (log : list event) : Forall body_line log → probed log = [].
Proof.
  induction 1 as [|ev log Hev _ IH]; [done|]. destruct ev; try done; exact IH.
Qed.

Lemma details_body (log : list event) :
  Forall body_line log → details log = [].
Proof.
  induction 1 as [|ev log Hev _ IH]; [done|]. destruct ev; try done; exact IH.
Qed.

Lemma probed_probes (e : env) (parser : parser) (files : list pystr) :
  probed (flat_map (fun file_path => (test_move_file e file_path parser).1)
                   files) = files.
Proof.
  induction files as [|f files IH]; [done|].
  destruct (probe_log_shape e f parser) as (rest & Hrun & Hrest).
  cbn [flat_map]. rewrite probed_app, IH, Hrun. cbn [fst].
  change (probed (Testing f :: rest)) with (f :: probed rest).
  by rewrite (probed_body _ Hrest).
Qed.

Lemma details_probes (e : env) (parser : parser) (files : list pystr) :
  details (flat_map (fun file_path => (test_move_file e file_path parser).1)
                    files) = [].
Proof.
  induction files as [|f files IH]; [done|].
  destruct (probe_log_shape e f parser) as (rest & Hrun & Hrest).
  cbn [flat_map]. rewrite details_app, IH, Hrun. cbn [fst].
  change (details (Testing f :: rest)) with (details rest).
  by rewrite (details_body _ Hrest).
Qed.

Lemma probed_listing {A} (f : A → nat) (g : A → pystr) (l : list A) :
  probed (map (fun x => Listed (f x) (g x)) l) = [].
Proof. by induction l. Qed.

Lemma details_listing {A} (f : A → nat) (g : A → pystr) (l : list A) :
  details (map (fun x => Listed (f x) (g x)) l) = [].
Proof. by induction l. Qed.

Lemma probed_details (l : list (pystr * bool)) :
  probed (map (fun item => Detail item.1 item.2) l) = [].
Proof. by induction l. Qed.

Lemma details_details (l : list (pystr * bool)) :
  details (map (fun item => Detail item.1 item.2) l) = l.
Proof.
  induction l as [|[k v] l IH]; [done|]. cbn. f_equal. exact IH.
Qed.

Lemma report_app (l1 l2 : list event) :
  report (l1 ++ l2) = report l1 ++ report l2.
Proof. apply List.filter_app. Qed.

Lemma report_listing {A} (f : A → nat) (g : A → pystr) (l : list A) :
  report (map (fun x => Listed (f x) (g x)) l) = [].
Proof. by induction l. Qed.
Lemma test_move_file_reordered (e : env) (names : list pystr) :
  test_move_file (reordered e names) = test_move_file e.
Proof. reflexivity. Qed.

Lemma results_of_reordered (e : env) (names : list pystr) :
  results_of (reordered e names) = results_of e.
Proof. reflexivity. Qed.

(** C8. The files are probed in the lexicographic order of their names,
    and the per-file results of the summary follow the same order.  The
    order in which the directory yields its entries has no effect on what
    is printed after the listing of the files found: two runs over the
    same entries print the same probes and the same summary. *)
Theorem deterministic_order (e : env) (parser : parser) :
  import_modules e = inr tt →
  create_parser e = inr parser →
  dir_exists e = true →
  dir_matches e ≠ [] →
  NoDup (dir_matches e) →
  Forall (fun name => 47%N ∉ name) (dir_matches e) →
  let names := sorted (dir_matches e) in
  Sorted str_le names
  ∧ names ≡ₚ dir_matches e
  ∧ probed (main e).1 = map (path_join test_dir) names
  ∧ details (main e).1 =
    map (fun name => (name, verdict_of e parser (path_join test_dir name)))
        names
  ∧ ∀ names', names' ≡ₚ dir_matches e →
      report (main (reordered e names')).1 = report (main e).1.
Proof.
  intros Himport Hparser Hdir Hnames Hdup Hslash. cbn zeta.
  split; [apply Sorted_merge_sort; apply _|].
  split; [apply merge_sort_Permutation|].
  assert (∀ names', names' ≡ₚ dir_matches e →
            (main (reordered e names')).1 =
            [Banner; Initializing; ParserCreated; LanguageName;
             Found (length (dir_matches e))] ++
            map (fun entry => Listed entry.1 (basename entry.2))
                (enumerate1 (map (path_join test_dir) names')) ++
            StartTests ::
            flat_map (fun file_path => (test_move_file e file_path parser).1)
                     (map (path_join test_dir) (sorted (dir_matches e))) ++
            (print_summary
               (results_of e parser
                  (map (path_join test_dir) (sorted (dir_matches e))))).1)
    as Hlog.
  { intros names' Hperm. rewrite main_unfold.
    cbn [reordered import_modules create_parser dir_exists dir_matches].
    rewrite Himport, Hparser, Hdir. cbn [negb].
    destruct names' as [|name' names''].
    { symmetry in Hperm. by apply Permutation_nil_r in Hperm. }
    cbn zeta. cbn [fst]. unfold glob_move.
    cbn [reordered dir_matches].
    rewrite test_move_file_reordered, results_of_reordered.
    rewrite <- sorted_glob.
    rewrite (sorted_perm (map (path_join test_dir) (name' :: names''))
                         (map (path_join test_dir) (dir_matches e)))
      by by rewrite Hperm.
    by rewrite length_map, (Permutation_length Hperm). }
  assert (main e = main (reordered e (dir_matches e))) as Hself
    by by destruct e.
  assert (size (results_of e parser
             (map (path_join test_dir) (sorted (dir_matches e)))) ≠ 0)
    as Hsize.
  { apply results_nonempty. rewrite <- sorted_glob.
    apply sorted_nonempty. by destruct (dir_matches e). }
  split; [|split].
  - rewrite Hself, (Hlog _ (reflexivity _)).
    rewrite (print_summary_unfold _ Hsize). cbn zeta. cbn [fst].
    rewrite !probed_app, probed_listing.
    change (probed (StartTests :: ?log)) with (probed log).
    rewrite probed_app, probed_probes.
    change (probed (SummaryHeader :: OverallHeader :: TotalFiles ?t ::
                    TestsPassed ?p :: TestsFailed ?f :: SuccessRate ?r ::
                    DetailsHeader :: ?log)) with (probed log).
    rewrite probed_app, probed_details. cbn [app].
    change (probed [Banner; Initializing; ParserCreated; LanguageName;
                    Found ?n]) with (@nil pystr). cbn [app].
    destruct (_ =? 0)%Z; cbn; by rewrite app_nil_r.
  - rewrite Hself, (Hlog _ (reflexivity _)).
    rewrite (print_summary_unfold _ Hsize). cbn zeta. cbn [fst].
    rewrite !details_app, details_listing.
    change (details (StartTests :: ?log)) with (details log).
    rewrite details_app, details_probes.
    change (details (SummaryHeader :: OverallHeader :: TotalFiles ?t ::
                     TestsPassed ?p :: TestsFailed ?f :: SuccessRate ?r ::
                     DetailsHeader :: ?log)) with (details log).
    rewrite details_app, details_details. cbn [app].
    change (details [Banner; Initializing; ParserCreated; LanguageName;
                     Found ?n]) with (@nil (pystr * bool)). cbn [app].
    rewrite sorted_items_results by done.
    destruct (_ =? 0)%Z; cbn; by rewrite app_nil_r.
  - intros names' Hperm.
    rewrite Hself, (Hlog _ Hperm), (Hlog _ (reflexivity _)).
    by rewrite !report_app, !report_listing.
Qed.
Lemma deterministic_order_witness :
  probed (main mixed_world).1 =
    [str "move_test_files/a.move"; str "move_test_files/b.move"]
  ∧ details (main mixed_world).1 =
    [(str "a.move", true); (str "b.move", false)]
  ∧ report (main (reordered mixed_world [str "a.move"; str "b.move"])).1 =
    report (main mixed_world).1.
Proof.
  destruct (deterministic_order mixed_world (parser_of clean_tree))
    as (_ & _ & Hprobed & Hdetails & Hreport).
  - reflexivity.
  - reflexivity.
  - reflexivity.
  - discriminate.
  - by_compute.
  - by_compute.
  - split; [|split].
    + rewrite Hprobed. vm_compute. reflexivity.
    + rewrite Hdetails. vm_compute. reflexivity.
    + apply Hreport. apply perm_swap.
Defined.

(** *** FileProbe: the verdict *)

(** C5 (as amended).  A probe never lets a fault escape: it always returns
    a verdict.  When reading, encoding or parsing the file faults, the
    verdict is fail and the log ends with the cause.  When the file parses,
    the verdict is pass exactly when the root has no error and the text of
    every node reached by the structural render can be decoded.  Whatever
    the verdicts, the batch goes on: every file handed to the loop is
    probed, in order, and the loop returns the results. *)
Theorem probe_verdict (e : env) (parser : parser) :
  (∀ file_path, ∃ out verdict,
     test_move_file e file_path parser = (out, inr verdict) ∧
     match parse_outcome e file_path parser with
     | inl ex => verdict = false ∧ last out = Some (TestException ex)
     | inr t =>
         verdict = true ↔
         has_error (root_node t) = false ∧
         Forall (fun entry => decodable entry.1) (visited (root_node t) 0 2)
     end)
  ∧ (∀ files, ∃ out,
       run_tests e parser files = (out, inr (results_of e parser files))
       ∧ probed out = files).
Proof.
  split.
  - intros file_path.
    destruct (parse_outcome e file_path parser) as [ex|t] eqn:Hout.
    + destruct (test_move_file_fault _ _ _ _ Hout) as [out Hrun].
      exists (out ++ [TestException ex]), false.
      split; [done|]. split; [done|]. apply last_snoc.
    + unfold parse_outcome in Hout.
      destruct (read_text e file_path) as [|code] eqn:Hread; [done|].
      destruct (encode code) as [|source] eqn:Hencode; [done|].
      rewrite (test_move_file_parsed _ _ _ _ _ _ Hread Hencode Hout).
      cbn zeta. eexists _, _. split; [reflexivity|].
      rewrite <- analyze_node_ok_iff.
      destruct (has_error (root_node t)) eqn:Herr.
      * split; [|by intros [? _]]. by destruct (report_errors _).2.
      * rewrite report_tree_unfold.
        destruct (analyze_node (root_node t) 0 2) as [out [ex|[]]];
          cbn [fst snd negb]; by split; [intros ?|intros [_ ?]].
  - intros files. rewrite run_tests_unfold. eexists. split; [reflexivity|].
    apply probed_probes.
Qed.

(** C5 (as stated) fails.  The file parses and its tree has no error
    node, yet the verdict of the probe is fail: the text of one node cannot
    be decoded, and the fault raised by the render is turned into the
    verdict. *)
Lemma probe_verdict_counterexample :
  parse_outcome (world undecodable_tree []) (str "a.move")
                (parser_of undecodable_tree) = inr undecodable_tree
  ∧ has_error (root_node undecodable_tree) = false
  ∧ (test_move_file (world undecodable_tree []) (str "a.move")
                    (parser_of undecodable_tree)).2 = inr false
  ∧ ¬ (verdict_of (world undecodable_tree []) (parser_of undecodable_tree)
                  (str "a.move") = true
       ↔ has_error (root_node undecodable_tree) = false).
Proof.
  split; [by vm_compute|]. split; [by vm_compute|]. split; [by vm_compute|].
  intros [_ Hpass]. specialize (Hpass ltac:(by vm_compute)).
  by vm_compute in Hpass.
Qed.

(** A file that cannot be read fails its probe, and the log ends with the
    cause. *)
Example probe_read_fault :
  test_move_file mixed_world (str "move_test_files/b.move")
                 (parser_of clean_tree) =
  ([Testing (str "move_test_files/b.move"); TestException OSError],
   inr false).
Proof. reflexivity. Qed.
(** *** UTF-8: encoding then decoding *)

Lemma byte_to_of_N (v : N) : (v < 256)%N → Byte.to_N (byte_of_N v) = v.
Proof.
  intros Hv. unfold byte_of_N.
  destruct (Byte.of_N v) as [b|] eqn:E.
  - by apply Byte.to_of_N.
  - apply Byte.of_N_None_iff in E. lia.
Qed.

Ltac euclid := zify; Z.to_euclidean_division_equations; lia.

Lemma continuation_byte (v : N) :
  (v < 64)%N → continuation (byte_of_N (128 + v)) = Some v.
Proof.
  intros Hv. unfold continuation. rewrite byte_to_of_N by lia.
  assert ((128 <=? 128 + v)%N = true) as -> by (apply N.leb_le; lia).
  assert ((128 + v <=? 191)%N = true) as -> by (apply N.leb_le; lia).
  cbn [andb]. f_equal. lia.
Qed.

Lemma utf8_decode_encode_cp (c : N) (b rest : pybytes) :
  utf8_encode_cp c = Some b →
  utf8_decode (b ++ rest) = cons c <$> utf8_decode rest.
Proof.
  unfold utf8_encode_cp.
  destruct (N.ltb_spec c 128) as [H1|H1].
  { intros [= <-]. cbn [app utf8_decode]. rewrite byte_to_of_N by lia.
    by assert ((c <? 128)%N = true) as -> by (apply N.ltb_lt; lia). }
  destruct (N.ltb_spec c 2048) as [H2|H2].
  { intros [= <-]. cbn [app utf8_decode].
    rewrite byte_to_of_N by euclid.
    rewrite continuation_byte by euclid.
    assert ((192 + c / 64 <? 128)%N = false) as -> by (apply N.ltb_ge; euclid).
    assert ((192 + c / 64 <? 194)%N = false) as -> by (apply N.ltb_ge; euclid).
    assert ((192 + c / 64 <? 224)%N = true) as -> by (apply N.ltb_lt; euclid).
    do 2 f_equal. euclid. }
  destruct (N.ltb_spec c 65536) as [H3|H3].
  { destruct (N.leb_spec 55296 c) as [H4|H4];
      [destruct (N.leb_spec c 57343) as [H5|H5]|]; cbn [andb];
      [done| |]; intros [= <-]; cbn [app utf8_decode].
    all: rewrite byte_to_of_N by euclid.
    all: rewrite !continuation_byte by euclid.
    all: assert ((224 + c / 4096 <? 128)%N = false) as ->
        by (apply N.ltb_ge; euclid).
    all: assert ((224 + c / 4096 <? 194)%N = false) as ->
        by (apply N.ltb_ge; euclid).
    all: assert ((224 + c / 4096 <? 224)%N = false) as ->
        by (apply N.ltb_ge; euclid).
    all: assert ((224 + c / 4096 <? 240)%N = true) as ->
        by (apply N.ltb_lt; euclid).
    all: assert (((224 + c / 4096 - 224) * 4096 + c / 64 mod 64 * 64
                  + c mod 64)%N = c) as -> by euclid.
    all: assert ((c <? 2048)%N = false) as -> by (apply N.ltb_ge; lia).
    - assert ((55296 <=? c)%N = true) as -> by (apply N.leb_le; lia).
      by assert ((c <=? 57343)%N = false) as -> by (apply N.leb_gt; lia).
    - by assert ((55296 <=? c)%N = false) as -> by (apply N.leb_gt; lia). }
  destruct (N.ltb_spec c 1114112) as [H4|H4]; [|done].
  intros [= <-]. cbn [app utf8_decode].
  rewrite byte_to_of_N by euclid.
  rewrite !continuation_byte by euclid.
  assert ((240 + c / 262144 <? 128)%N = false) as -> by (apply N.ltb_ge; euclid).
  assert ((240 + c / 262144 <? 194)%N = false) as -> by (apply N.ltb_ge; euclid).
  assert ((240 + c / 262144 <? 224)%N = false) as -> by (apply N.ltb_ge; euclid).
  assert ((240 + c / 262144 <? 240)%N = false) as -> by (apply N.ltb_ge; euclid).
  assert ((240 + c / 262144 <? 245)%N = true) as -> by (apply N.ltb_lt; euclid).
  assert (((240 + c / 262144 - 240) * 262144 + c / 4096 mod 64 * 4096
           + c / 64 mod 64 * 64 + c mod 64)%N = c) as -> by euclid.
  assert ((c <? 65536)%N = false) as -> by (apply N.ltb_ge; lia).
  by assert ((1114111 <? c)%N = false) as -> by (apply N.ltb_ge; lia).
Qed.

Lemma utf8_decode_encode (s : pystr) (b : pybytes) :
  utf8_encode s = Some b → utf8_decode b = Some s.
Proof.
  revert b. induction s as [|c s IH]; intros b; cbn [utf8_encode].
  - by intros [= <-].
  - destruct (utf8_encode_cp c) as [bc|] eqn:Hc; [|done].
    destruct (utf8_encode s) as [bs|]; [|done]. intros [= <-].
    by rewrite (utf8_decode_encode_cp _ _ _ Hc), (IH bs).
Qed.

(** X1. The bytes the probe hands to the parser decode back to the text
    that was read: encoding as UTF-8 and decoding again is the identity
    wherever the encoding is defined. *)
Theorem decode_encode (code : pystr) (source : pybytes) :
  encode code = inr source → decode source = inr code.
Proof.
  unfold encode, decode.
  destruct (utf8_encode code) as [b|] eqn:E; [|done]. intros [= <-].
  by rewrite (utf8_decode_encode _ _ E).
Qed.

Lemma decode_encode_witness :
  decode [xe2; x94; x9c; x61; xf0; x9f; x98; x80] =
  inr [9500; 97; 128512]%N.
Proof. apply (decode_encode [9500; 97; 128512]%N). reflexivity. Defined.

(** *** The node-text preview: bounds *)

Lemma escape_newlines_length (s : pystr) :
  length (escape_newlines s) ≤ 2 * length s.
Proof.
  induction s as [|c s IH]; [done|]. cbn [escape_newlines flat_map].
  fold (escape_newlines s). rewrite length_app.
  destruct (c =? 10)%N; cbn [length]; lia.
Qed.

Lemma escape_newlines_no_newline (s : pystr) : 10%N ∉ escape_newlines s.
Proof.
  induction s as [|c s IH]; [apply not_elem_of_nil|].
  cbn [escape_newlines flat_map]. fold (escape_newlines s).
  rewrite elem_of_app. intros [Hc|Hs]; [|done].
  destruct (N.eqb_spec c 10) as [->|Hne].
  - by repeat (apply elem_of_cons in Hc as [Hc|Hc]; [done|]);
      apply elem_of_nil in Hc.
  - apply elem_of_cons in Hc as [Hc|Hc]; [done|]. by apply elem_of_nil in Hc.
Qed.

(** X2. Whatever the text of a node, its preview holds no raw line feed
    and at most 100 characters (the first 50 characters, each line feed
    among them written as two), it starts with those escaped characters,
    and it is followed by nothing or by the three-character marker. *)
Theorem text_preview_bounds (s : pystr) :
  (10%N ∉ text_preview_of s)
  ∧ length (text_preview_of s) ≤ 100
  ∧ (text_preview_of s = escape_newlines (firstn 50 s)
     ∨ text_preview_of s = escape_newlines (firstn 50 s) ++ ellipsis).
Proof.
  unfold text_preview_of, slice_to.
  pose proof (escape_newlines_length (firstn 50 s)) as Hlen.
  pose proof (escape_newlines_no_newline (firstn 50 s)) as Hnl.
  rewrite length_firstn in Hlen.
  destruct (Nat.eqb_spec (length (escape_newlines (firstn 50 s))) 50)
    as [Heq|Hne].
  - split; [|split; [|by right]].
    + rewrite elem_of_app. intros [?|Hdots]; [done|].
      by repeat (apply elem_of_cons in Hdots as [Hdots|Hdots]; [done|]);
        apply elem_of_nil in Hdots.
    + rewrite length_app, Heq. cbn. lia.
  - split; [done|]. split; [lia|by left].
Qed.
(** *** The structural render: what it reaches *)

Lemma visited_depths (n : node) (depth max_depth : nat) :
  Forall (fun entry => depth ≤ entry.2 ∧ entry.2 ≤ Nat.max depth max_depth)
         (visited n depth max_depth).
Proof.
  revert depth. induction n as [ty tx sp ep cs he IH] using node_ind.
  intros depth. cbn [visited children]. constructor; [cbn; lia|].
  destruct (Nat.ltb_spec depth max_depth) as [Hlt|_]; [|constructor].
  induction IH as [|c cs' Hc _ IHcs]; [constructor|].
  cbn [flat_map]. apply Forall_app. split; [|exact IHcs].
  eapply Forall_impl; [apply (Hc (depth + 1))|]. cbn. lia.
Qed.

Lemma visited_sublist (n : node) (depth max_depth : nat) :
  map fst (visited n depth max_depth) `sublist_of` preorder n.
Proof.
  revert depth. induction n as [ty tx sp ep cs he IH] using node_ind.
  intros depth. cbn [visited preorder children map fst].
  apply sublist_skip.
  destruct (depth <? max_depth); [|apply sublist_nil_l].
  induction IH as [|c cs' Hc _ IHcs]; [done|].
  cbn [flat_map]. rewrite map_app. by apply sublist_app.
Qed.

Lemma render_log (l : list (node * nat)) :
  ∃ lines,
    (for_each l (fun entry => print_node_line entry.1 entry.2)).1 =
    map AstLine lines
    ∧ length lines ≤ length l.
Proof.
  induction l as [|x l (lines & Hlog & Hlen)]; [by exists []|].
  rewrite for_each_cons, mbind_unfold. unfold print_node_line at 1 2 3.
  destruct (node_line x.1 x.2) as [ex|line].
  - exists []. cbn. split; [done|lia].
  - exists (line :: lines). rewrite lift_ok_then. cbn [print fst snd].
    rewrite Hlog. cbn. split; [done|lia].
Qed.

Lemma visited_descends (n : node) (depth max_depth : nat) :
  Forall (fun entry => descends n (entry.2 - depth) entry.1)
         (visited n depth max_depth).
Proof.
  revert depth. induction n as [ty tx sp ep cs he IH] using node_ind.
  intros depth. cbn [visited children]. constructor.
  { cbn [fst snd]. by rewrite Nat.sub_diag. }
  destruct (depth <? max_depth); [|constructor].
  apply Forall_forall. intros entry Hentry.
  apply list_elem_of_In, in_flat_map in Hentry as (c & Hc & Hentry).
  rewrite Forall_forall in IH. apply list_elem_of_In in Hc, Hentry.
  pose proof (IH c Hc (depth + 1)) as Hsub.
  pose proof (visited_depths c (depth + 1) max_depth) as Hdepths.
  rewrite Forall_forall in Hsub, Hdepths.
  specialize (Hsub entry Hentry). specialize (Hdepths entry Hentry).
  replace (entry.2 - depth) with (S (entry.2 - (depth + 1))) by lia.
  exists c. by split.
Qed.

(** What a render prints: the lines of the entries it is given, up to the
    first one whose text cannot be decoded. *)
Lemma render_prefix (l : list (node * nat)) :
  ∃ entries lines,
    (for_each l (fun entry => print_node_line entry.1 entry.2)).1 =
    map AstLine lines
    ∧ Forall2 (fun entry line => node_line entry.1 entry.2 = inr line)
              entries lines
    ∧ entries `prefix_of` l.
Proof.
  induction l as [|x l (entries & lines & Hlog & Hlines & Hpre)].
  { exists [], []. by repeat split; [constructor|]. }
  rewrite for_each_cons, mbind_unfold. unfold print_node_line at 1 2 3.
  destruct (node_line x.1 x.2) as [ex|line] eqn:Hline.
  - exists [], []. split; [done|]. split; [constructor|apply prefix_nil].
  - exists (x :: entries), (line :: lines). rewrite lift_ok_then.
    cbn [print fst snd]. rewrite Hlog.
    split; [done|]. split; [by constructor|by apply prefix_cons].
Qed.

Lemma render_ok (n : node) (depth max_depth : nat) :
  Forall (fun entry => decodable entry.1) (visited n depth max_depth) →
  ∃ lines,
    analyze_node n depth max_depth = (map AstLine lines, inr tt)
    ∧ Forall2 (fun entry line => node_line entry.1 entry.2 = inr line)
              (visited n depth max_depth) lines.
Proof.
  rewrite analyze_node_visited.
  induction 1 as [|x l Hx _ (lines & Hrun & Hlines)]; [by exists []|].
  destruct (node_line_decodable _ x.2 Hx) as [line Hline].
  exists (line :: lines). split; [|by constructor].
  rewrite for_each_cons, Hrun. unfold print_node_line. by rewrite Hline.
Qed.

(** X3. [analyze_node] goes no deeper than [max_depth].  Its log is made
    of render lines only; they are the lines of a sequence of nodes taken
    in pre-order from the tree, each rendered with its depth: a node
    printed with depth [d] is reached from the node the render is called
    on by going down [d - depth] times, and [d] lies between the starting
    depth and the cap.  Called at or below the cap, the render prints the
    line of its node at most. *)
Theorem render_depth_cap (n : node) (depth max_depth : nat) :
  ∃ entries lines,
    (analyze_node n depth max_depth).1 = map AstLine lines
    ∧ Forall2 (fun entry line => node_line entry.1 entry.2 = inr line)
              entries lines
    ∧ Forall (fun entry =>
                depth ≤ entry.2 ∧ entry.2 ≤ Nat.max depth max_depth
                ∧ descends n (entry.2 - depth) entry.1) entries
    ∧ map fst entries `sublist_of` preorder n
    ∧ (max_depth ≤ depth → entries `prefix_of` [(n, depth)]).
Proof.
  rewrite analyze_node_visited.
  destruct (render_prefix (visited n depth max_depth))
    as (entries & lines & Hlog & Hlines & Hpre).
  exists entries, lines. split; [done|]. split; [done|].
  split; [|split].
  - pose proof (visited_depths n depth max_depth) as Hdepths.
    pose proof (visited_descends n depth max_depth) as Hdesc.
    destruct Hpre as [rest Hrest]. rewrite Hrest in Hdepths, Hdesc.
    apply Forall_app in Hdepths as [Hdepths _].
    apply Forall_app in Hdesc as [Hdesc _].
    rewrite Forall_forall in Hdepths, Hdesc. apply Forall_forall.
    intros entry Hentry. specialize (Hdepths entry Hentry).
    specialize (Hdesc entry Hentry). by intuition.
  - etrans; [|apply (visited_sublist n depth max_depth)].
    destruct Hpre as [rest ->]. rewrite map_app. apply sublist_inserts_r.
    reflexivity.
  - intros Hcap. destruct n as [ty tx sp ep cs he].
    cbn [visited] in Hpre.
    assert ((depth <? max_depth) = false) as Hoff by (apply Nat.ltb_ge; lia).
    by rewrite Hoff in Hpre.
Qed.

Lemma height_child (c : node) (cs : list node) :
  c ∈ cs → S (height c) ≤ list_max (map (fun child => S (height child)) cs).
Proof.
  induction cs as [|c' cs IH]; intros Hc; [by apply elem_of_nil in Hc|].
  cbn [map list_max fold_right]. apply elem_of_cons in Hc as [->|Hc].
  - lia.
  - specialize (IH Hc). unfold list_max in IH. lia.
Qed.

Lemma visited_complete (n : node) (depth max_depth : nat) :
  height n + depth ≤ max_depth →
  map fst (visited n depth max_depth) = preorder n.
Proof.
  revert depth. induction n as [ty tx sp ep cs he IH] using node_ind.
  intros depth Hheight. cbn [visited preorder children map fst]. f_equal.
  cbn [height children] in Hheight.
  destruct (Nat.ltb_spec depth max_depth) as [_|Hge].
  - assert (∀ c, c ∈ cs → height c + (depth + 1) ≤ max_depth) as Hchild.
    { intros c Hc. pose proof (height_child c cs Hc). lia. }
    clear Hheight. induction IH as [|c cs' Hc _ IHcs]; [done|].
    cbn [flat_map]. rewrite map_app, Hc, IHcs; [done| |].
    + intros c' Hc'. apply Hchild. by right.
    + apply Hchild. by left.
  - destruct cs as [|c cs']; [done|].
    pose proof (height_child c (c :: cs') ltac:(left)). lia.
Qed.

Lemma visited_incomplete (n : node) (depth max_depth : nat) :
  max_depth < height n + depth → height n ≠ 0 →
  length (visited n depth max_depth) < length (preorder n).
Proof.
  revert depth. induction n as [ty tx sp ep cs he IH] using node_ind.
  intros depth Hheight Hinner. cbn [visited preorder children length].
  cbn [height children] in Hheight, Hinner. apply -> Nat.succ_lt_mono.
  destruct (Nat.ltb_spec depth max_depth) as [Hlt|Hge].
  - clear Hinner. induction IH as [|c cs' Hc _ IHcs]; [cbn in Hheight; lia|].
    cbn [flat_map]. rewrite !length_app.
    cbn [map list_max fold_right] in Hheight.
    fold (list_max (map (fun child => S (height child)) cs')) in Hheight.
    pose proof (sublist_length _ _ (visited_sublist c (depth + 1) max_depth))
      as Hc_le. rewrite length_map in Hc_le.
    assert (length (flat_map (fun child => visited child (depth + 1) max_depth)
                             cs') ≤ length (flat_map preorder cs')) as Hcs_le.
    { clear. induction cs' as [|c' cs' IH']; [done|].
      cbn [flat_map]. rewrite !length_app.
      pose proof (sublist_length _ _
                    (visited_sublist c' (depth + 1) max_depth)) as H'.
      rewrite length_map in H'. lia. }
    destruct (Nat.max_spec (S (height c))
                (list_max (map (fun child => S (height child)) cs')))
      as [[_ Hmax]|[_ Hmax]]; rewrite Hmax in Hheight.
    + specialize (IHcs Hheight). lia.
    + specialize (Hc (depth + 1) ltac:(lia) ltac:(lia)). lia.
  - cbn [length]. destruct cs as [|c cs']; [by cbn in Hinner|].
    cbn [flat_map]. rewrite length_app. destruct c. cbn. lia.
Qed.

(** X4. When the texts of all nodes of a tree can be decoded,
    [analyze_node] ends normally, and it shows the whole tree exactly when
    the tree is shallow enough: it prints as many lines as the tree has
    nodes iff the height of the tree added to the starting depth does not
    exceed [max_depth] (or the node has no children); the lines are then
    the lines of the nodes in pre-order.  Otherwise it prints strictly
    fewer lines than the tree has nodes. *)
Theorem render_complete_iff (n : node) (depth max_depth : nat) :
  Forall decodable (preorder n) →
  ∃ lines,
    analyze_node n depth max_depth = (map AstLine lines, inr tt)
    ∧ (length lines = node_count n
       ↔ height n + depth ≤ max_depth ∨ height n = 0)
    ∧ (length lines = node_count n →
       Forall2 (fun m line => ∃ d, node_line m d = inr line)
               (preorder n) lines)
    ∧ (length lines ≠ node_count n → length lines < node_count n).
Proof.
  intros Hdec.
  assert (Forall (fun entry : node * nat => decodable entry.1)
                 (visited n depth max_depth)) as Hvis.
  { apply Forall_forall. intros entry Hentry.
    rewrite Forall_forall in Hdec. apply Hdec.
    eapply elem_of_sublist; [|apply (visited_sublist n depth max_depth)].
    apply list_elem_of_fmap. by exists entry. }
  destruct (render_ok n depth max_depth Hvis) as (lines & Hrun & Hlines).
  exists lines. split; [done|].
  pose proof (Forall2_length _ _ _ Hlines) as Hlen.
  pose proof (sublist_length _ _ (visited_sublist n depth max_depth)) as Hsub.
  rewrite length_map in Hsub. rewrite node_count_preorder.
  assert (height n + depth ≤ max_depth ∨ height n = 0 →
          map fst (visited n depth max_depth) = preorder n) as Hfull.
  { intros [Hle|Hleaf]; [by apply visited_complete|].
    destruct n as [ty tx sp ep [|c cs] he].
    - cbn [visited preorder children flat_map map fst].
      by destruct (depth <? max_depth).
    - pose proof (height_child c (c :: cs) ltac:(left)) as Hc.
      cbn [height children] in Hleaf. lia. }
  assert (length lines = length (preorder n) →
          height n + depth ≤ max_depth ∨ height n = 0) as Hshallow.
  { intros Heq.
    destruct (decide (height n + depth ≤ max_depth)); [by left|].
    destruct (decide (height n = 0)); [by right|]. exfalso.
    pose proof (visited_incomplete n depth max_depth ltac:(lia) ltac:(done)).
    lia. }
  split; [|split].
  - split; [exact Hshallow|]. intros Hcase.
    by rewrite <- Hlen, <- (Hfull Hcase), length_map.
  - intros Heq. rewrite <- (Hfull (Hshallow Heq)).
    clear -Hlines. induction Hlines as [|[m d] line l lines Hline _ IH];
      [constructor|].
    cbn [map fst]. constructor; [by exists d|exact IH].
  - lia.
Qed.

Lemma render_complete_iff_witness :
  ∃ lines,
    analyze_node (root_node clean_tree) 0 2 = (map AstLine lines, inr tt)
    ∧ length lines = 3.
Proof.
  destruct (render_complete_iff (root_node clean_tree) 0 2)
    as (lines & Hrun & Hiff & _).
  - by_compute.
  - exists lines. split; [done|]. apply Hiff. left. vm_compute. lia.
Defined.

(** *** The structural render: the lines *)

Lemma indent_of_spaces (depth : nat) : indent_of depth = repeat 32%N (2 * depth).
Proof.
  unfold indent_of. induction depth as [|depth IH]; [done|].
  cbn [repeat concat]. rewrite IH.
  replace (2 * S depth) with (S (S (2 * depth))) by lia. done.
Qed.

Lemma node_line_shape (n : node) (depth : nat) (line : pystr) :
  node_line n depth = inr line →
  ∃ rest, line = repeat 32%N (2 * depth) ++ connector ++ type n ++ rest.
Proof.
  unfold node_line. rewrite indent_of_spaces.
  destruct (text n) as [[|b raw]|].
  - intros [= <-]. exists []. by rewrite app_nil_r.
  - destruct (text_preview (b :: raw)) as [|preview]; [done|].
    intros [= <-]. eexists. by rewrite <- !app_assoc.
  - intros [= <-]. exists []. by rewrite app_nil_r.
Qed.

(** X5. When the texts of the nodes it reaches can all be decoded, the
    structural render ends normally and prints exactly one line for each
    node it reaches, in order; the line of a node at depth [d] starts with
    [2 * d] spaces, the connector and the type tag of the node. *)
Theorem render_lines (n : node) (depth max_depth : nat) :
  Forall (fun entry => decodable entry.1) (visited n depth max_depth) →
  ∃ lines,
    analyze_node n depth max_depth = (map AstLine lines, inr tt)
    ∧ Forall2
        (fun entry line =>
           ∃ rest, line = repeat 32%N (2 * entry.2) ++ connector
                            ++ type entry.1 ++ rest)
        (visited n depth max_depth) lines.
Proof.
  rewrite analyze_node_visited.
  induction 1 as [|x l Hx _ (lines & Hrun & Hshape)].
  - by exists [].
  - destruct (node_line_decodable _ x.2 Hx) as [line Hline].
    exists (line :: lines). split.
    + rewrite for_each_cons, Hrun. unfold print_node_line.
      by rewrite Hline.
    + constructor; [|done]. by apply node_line_shape in Hline.
Qed.

Lemma render_lines_witness :
  ∃ lines,
    analyze_node (root_node clean_tree) 0 2 = (map AstLine lines, inr tt)
    ∧ length lines = 3.
Proof.
  destruct (render_lines (root_node clean_tree) 0 2) as (lines & Hrun & Hshape).
  - by_compute.
  - exists lines. split; [done|].
    apply Forall2_length in Hshape. by rewrite <- Hshape.
Defined.

(** *** The census and the error nodes *)

Lemma occurrences_error (l : list node) :
  occurrences ERROR (map type l) = length (List.filter is_error l).
Proof.
  unfold occurrences, is_error. induction l as [|n l IH]; [done|].
  cbn [map List.filter]. cbn beta.
  destruct (bool_decide (type n = ERROR)); cbn [length]; by rewrite IH.
Qed.

(** X6. The census and the error search agree: the count stored under the
    ERROR tag is the number of nodes [find_errors] returns, and the tag is
    absent from the census exactly when [find_errors] returns nothing. *)
Theorem census_counts_errors (root : node) :
  count_node_types root !! ERROR =
  match find_errors root with
  | [] => None
  | _ :: _ => Some (length (find_errors root))
  end.
Proof.
  unfold count_node_types.
  rewrite visit_fold, lookup_fold_bump, lookup_empty, occurrences_error.
  rewrite <- find_errors_filter. by destruct (find_errors root).
Qed.
(** *** The census as it is printed *)

Lemma stats_app (l1 l2 : list event) : stats (l1 ++ l2) = stats l1 ++ stats l2.
Proof. apply omap_app. Qed.

Lemma stats_ast_lines (lines : list pystr) : stats (map AstLine lines) = [].
Proof. by induction lines. Qed.

Lemma stats_stat_lines (items : list (pystr * nat)) :
  stats (map (fun item => Stat item.1 item.2) items) = items.
Proof.
  induction items as [|[ty c] items IH]; [done|]. cbn. f_equal. exact IH.
Qed.

Lemma Sorted_keys {V} (vle : relation V) (items : list (pystr * V)) :
  Sorted (tuple_le vle) items → NoDup (map fst items) →
  Sorted str_lt (map fst items).
Proof.
  induction 1 as [|[k v] items _ IH Hhd]; intros Hdup; [constructor|].
  cbn [map fst] in *. apply NoDup_cons in Hdup as [Hk Hdup].
  constructor; [by apply IH|].
  destruct Hhd as [|[k' v'] items' [Hle _]]; constructor.
  cbn [fst] in *. split; [done|]. intros ->. apply Hk. left.
Qed.

Lemma sorted_items_perm {V} (vle : relation V) `{!RelDecision vle}
    (d : gmap pystr V) :
  sorted_items vle d ≡ₚ map_to_list d.
Proof. apply merge_sort_Permutation. Qed.

(** X7. After a render that ends normally, the statistics printed for an
    error-free tree are the census itself: one line for each type tag, in
    strictly increasing lexicographic order of the tags, from which the
    census can be read back.  After a render that faults, no statistics
    line is printed. *)
Theorem census_report (root : node) :
  match (analyze_node root 0 2).2 with
  | inr _ =>
      stats (report_tree root).1 = sorted_items le (count_node_types root)
      ∧ Sorted str_lt (map fst (stats (report_tree root).1))
      ∧ list_to_map (stats (report_tree root).1) = count_node_types root
  | inl _ => stats (report_tree root).1 = []
  end.
Proof.
  rewrite report_tree_unfold.
  destruct (render_log (visited root 0 2)) as (lines & Hlog & _).
  rewrite <- analyze_node_visited in Hlog.
  destruct (analyze_node root 0 2) as [out [ex|[]]]; cbn [fst snd] in *;
    subst out.
  - rewrite stats_app. cbn [stats omap app]. apply stats_ast_lines.
  - assert (stats
              ([ParseOk; RootType (type root); ChildCount (child_count root);
                AstHeader] ++ map AstLine lines ++ StatsHeader ::
               map (fun item => Stat item.1 item.2)
                   (sorted_items le (count_node_types root))) =
            sorted_items le (count_node_types root)) as ->.
    { rewrite !stats_app, stats_ast_lines.
      change (stats (StatsHeader :: ?log)) with (stats log).
      by rewrite stats_stat_lines. }
    split; [done|]. split.
    + apply (Sorted_keys le).
      * apply Sorted_merge_sort; apply _.
      * rewrite sorted_items_perm. apply NoDup_fst_map_to_list.
    + rewrite <- (list_to_map_to_list (count_node_types root)) at 2.
      apply list_to_map_proper; [|apply sorted_items_perm].
      rewrite sorted_items_perm. apply NoDup_fst_map_to_list.
Qed.

(** *** The code preview *)

Lemma show_preview_unfold (code : pystr) :
  show_preview code =
  let lines := splitlines code in
  let preview_lines := Nat.min 10 (length lines) in
  ([FileSize (length code); LineCount (length lines);
    PreviewHeader preview_lines; BoxTop] ++
   map (fun entry => PreviewLine entry.1 (line_preview entry.2))
       (enumerate1 (firstn preview_lines lines)) ++
   (if preview_lines <? length lines
    then [Omitted (length lines - preview_lines)] else []) ++
   [BoxBottom],
   inr tt).
Proof.
  unfold show_preview. cbn zeta. rewrite !print_then.
  assert (for_each (enumerate1 (firstn (Nat.min 10 (length (splitlines code)))
                                       (splitlines code)))
            (fun '(i, line) => print (PreviewLine i (line_preview line))) =
          (map (fun entry => PreviewLine entry.1 (line_preview entry.2))
               (enumerate1 (firstn (Nat.min 10 (length (splitlines code)))
                                   (splitlines code))), inr tt)) as ->.
  { rewrite <- for_each_print. apply for_each_ext. by intros [? ?]. }
  rewrite mbind_unfold. cbn [fst snd].
  destruct (_ <? _); rewrite ?print_then; cbn; by rewrite ?app_nil_r.
Qed.

Lemma preview_shown_lines (entries : list (nat * pystr)) :
  preview_shown
    (map (fun entry => PreviewLine entry.1 (line_preview entry.2)) entries) =
  map (fun entry => (entry.1, line_preview entry.2)) entries.
Proof. induction entries as [|[i l] entries IH]; [done|]. cbn. by f_equal. Qed.

Lemma preview_omitted_lines (entries : list (nat * pystr)) (tail : list event) :
  preview_omitted
    (map (fun entry => PreviewLine entry.1 (line_preview entry.2)) entries
       ++ tail) = preview_omitted tail.
Proof. induction entries as [|[i l] entries IH]; [done|]. exact IH. Qed.

(** X8. The code preview accounts for every line of the file: it shows
    the first ten lines at most, numbered from 1 in file order, each cut by
    the line rule; the number of lines it reports as omitted is the number
    of lines beyond the tenth, so that shown and omitted lines add up to
    the line count it prints.  No line shown is longer than 48
    characters. *)
Theorem preview_accounting (code : pystr) :
  let lines := splitlines code in
  let log := (show_preview code).1 in
  preview_shown log =
    map (fun entry => (entry.1, line_preview entry.2))
        (enumerate1 (firstn 10 lines))
  ∧ length (preview_shown log) = Nat.min 10 (length lines)
  ∧ preview_omitted log = length lines - 10
  ∧ length (preview_shown log) + preview_omitted log = length lines
  ∧ LineCount (length lines) ∈ log
  ∧ Forall (fun shown => length shown.2 ≤ 48) (preview_shown log).
Proof.
  cbn zeta. rewrite show_preview_unfold. cbn zeta. cbn [fst].
  set (lines := splitlines code).
  assert (firstn (Nat.min 10 (length lines)) lines = firstn 10 lines) as ->.
  { destruct (Nat.le_ge_cases 10 (length lines)) as [Hle|Hge].
    - by rewrite Nat.min_l.
    - rewrite Nat.min_r by done. by rewrite !firstn_all2 by lia. }
  assert (preview_shown
            ([FileSize (length code); LineCount (length lines);
              PreviewHeader (Nat.min 10 (length lines)); BoxTop] ++
             map (fun entry => PreviewLine entry.1 (line_preview entry.2))
                 (enumerate1 (firstn 10 lines)) ++
             (if Nat.min 10 (length lines) <? length lines
              then [Omitted (length lines - Nat.min 10 (length lines))]
              else []) ++ [BoxBottom]) =
          map (fun entry => (entry.1, line_preview entry.2))
              (enumerate1 (firstn 10 lines))) as ->.
  { cbn [app]. change (preview_shown (FileSize ?a :: LineCount ?b ::
                         PreviewHeader ?c :: BoxTop :: ?log))
      with (preview_shown log).
    unfold preview_shown at 1. rewrite omap_app.
    fold (preview_shown (map (fun entry : nat * pystr =>
            PreviewLine entry.1 (line_preview entry.2))
            (enumerate1 (firstn 10 lines)))).
    rewrite preview_shown_lines.
    by destruct (_ <? _); cbn; rewrite app_nil_r. }
  assert (preview_omitted
            ([FileSize (length code); LineCount (length lines);
              PreviewHeader (Nat.min 10 (length lines)); BoxTop] ++
             map (fun entry => PreviewLine entry.1 (line_preview entry.2))
                 (enumerate1 (firstn 10 lines)) ++
             (if Nat.min 10 (length lines) <? length lines
              then [Omitted (length lines - Nat.min 10 (length lines))]
              else []) ++ [BoxBottom]) = length lines - 10) as ->.
  { cbn [app]. change (preview_omitted (FileSize ?a :: LineCount ?b ::
                         PreviewHeader ?c :: BoxTop :: ?log))
      with (preview_omitted log).
    rewrite preview_omitted_lines.
    destruct (Nat.ltb_spec (Nat.min 10 (length lines)) (length lines)).
    - change (preview_omitted ([Omitted ?k] ++ [BoxBottom])) with (k + 0).
      lia.
    - change (preview_omitted ([] ++ [BoxBottom])) with 0. lia. }
  rewrite length_map, enumerate1_length, length_firstn.
  split; [done|]. split; [done|]. split; [done|]. split; [lia|].
  split; [apply elem_of_cons; right; apply elem_of_cons; by left|].
  apply Forall_forall. intros [i shown] Hin.
  apply list_elem_of_fmap in Hin as ([i' l] & [= -> ->] & _). cbn [snd].
  unfold line_preview, slice_to.
  destruct (45 <? length l); rewrite ?length_app, length_firstn;
    change (length ellipsis) with 3; lia.
Qed.
(** *** The error report: bounds *)

Lemma report_error_bounded (i : nat) (n : node) :
  length (report_error i n).1 ≤ 2 ∧ Forall excerpt_capped (report_error i n).1.
Proof.
  unfold report_error, error_text, decode. rewrite print_then. cbn [fst].
  destruct (text n) as [[|b raw]|]; cbn [ret fst length];
    [split; [lia|by repeat constructor]| |split; [lia|by repeat constructor]].
  destruct (utf8_decode (b :: raw)) as [s|].
  - rewrite lift_ok_then. cbn [print fst length]. split; [lia|].
    constructor; [exact I|]. constructor; [|constructor].
    unfold excerpt_capped, error_text_of, slice_to. rewrite length_firstn. lia.
  - cbn. split; [lia|by repeat constructor].
Qed.

Lemma report_loop_bounded (l : list (nat * node)) :
  let run := for_each l (fun '(i, error_node) => report_error i error_node) in
  length run.1 ≤ 2 * length l ∧ Forall excerpt_capped run.1.
Proof.
  cbn zeta. induction l as [|[i n] l [IHlen IHcap]]; [by split; [cbn|constructor]|].
  rewrite for_each_cons, mbind_unfold.
  destruct (report_error_bounded i n) as [Hlen Hcap].
  destruct (report_error i n) as [out [ex|[]]]; cbn [fst snd length] in *.
  - split; [lia|done].
  - rewrite length_app. split; [lia|]. apply Forall_app. by split.
Qed.

(** X9. The error report is bounded whatever the number of error nodes: it
    never holds more than eight lines (two headings and, for three nodes
    at most, a location and an excerpt), it shows three locations at most,
    and no excerpt is longer than 30 characters. *)
Theorem error_report_bounded (root : node) :
  length (report_errors root).1 ≤ 8
  ∧ length (locations (report_errors root).1) ≤ 3
  ∧ Forall excerpt_capped (report_errors root).1.
Proof.
  rewrite report_errors_unfold. cbn zeta. cbn [fst].
  set (shown := enumerate1 (firstn 3 (find_errors root))).
  assert (length shown ≤ 3) as Hshown.
  { unfold shown. rewrite enumerate1_length, length_firstn. lia. }
  destruct (report_loop_bounded shown) as [Hlen Hcap].
  destruct (report_loop shown) as (Hpre & _).
  cbn zeta in *. split; [cbn [length]; lia|]. split.
  - change (locations (ParseFailed :: FoundErrors ?c :: ?log))
      with (locations log).
    apply prefix_length in Hpre. rewrite length_map in Hpre. lia.
  - by repeat (constructor; [exact I|]).
Qed.

(** *** The frame of a probe log *)

Lemma show_preview_inner (code : pystr) :
  Forall inner_line (show_preview code).1.
Proof.
  unfold show_preview. repeat log_step. destruct (_ <? _); repeat log_step.
Qed.

Lemma report_errors_inner (root : node) :
  Forall inner_line (report_errors root).1.
Proof.
  unfold report_errors. repeat log_step. unfold report_error.
  repeat log_step. destruct (text _) as [[|? ?]|]; repeat log_step.
Qed.

Lemma report_tree_inner (root : node) : Forall inner_line (report_tree root).1.
Proof.
  unfold report_tree. repeat log_step.
  rewrite analyze_node_visited. unfold print_node_line. repeat log_step.
Qed.

(** X10. Every probe prints a framed log and returns a verdict: the log
    starts with the heading of the file and ends with exactly one outcome
    line, which is either the test result, carrying the verdict returned,
    or the exception that was caught, in which case the verdict is fail;
    no heading and no outcome line occurs in between. *)
Theorem probe_log_frame (e : env) (file_path : pystr) (parser : parser) :
  ∃ middle final,
    test_move_file e file_path parser =
    (Testing file_path :: middle ++ [final],
     inr (verdict_of e parser file_path))
    ∧ Forall inner_line middle
    ∧ (final = TestResult (verdict_of e parser file_path)
       ∨ (∃ ex, final = TestException ex)
         ∧ verdict_of e parser file_path = false).
Proof.
  unfold verdict_of.
  destruct (read_text e file_path) as [ex|code] eqn:Hread.
  { exists [], (TestException ex).
    unfold test_move_file, test_move_file_try. rewrite Hread.
    split; [reflexivity|]. split; [constructor|]. right. by eauto. }
  pose proof (show_preview_inner code) as Hpreview.
  destruct (encode code) as [ex|source] eqn:Hencode.
  { exists ((show_preview code).1 ++ [StartParse]), (TestException ex).
    unfold test_move_file, test_move_file_try.
    rewrite Hread, print_then, lift_ok_then.
    rewrite mbind_unfold, show_preview_total, print_then, Hencode.
    cbn [lift mbind M_bind bind fst snd try_except].
    rewrite print_then. cbn [ret fst snd].
    split; [by rewrite <- !app_assoc|].
    split; [apply Forall_app; by split; [|repeat constructor]|].
    right. by eauto. }
  destruct (parser source) as [ex|t] eqn:Hparse.
  { exists ((show_preview code).1 ++ [StartParse]), (TestException ex).
    unfold test_move_file, test_move_file_try.
    rewrite Hread, print_then, lift_ok_then.
    rewrite mbind_unfold, show_preview_total, print_then, Hencode.
    rewrite lift_ok_then, Hparse.
    cbn [lift mbind M_bind bind fst snd try_except].
    rewrite print_then. cbn [ret fst snd].
    split; [by rewrite <- !app_assoc|].
    split; [apply Forall_app; by split; [|repeat constructor]|].
    right. by eauto. }
  rewrite (test_move_file_parsed _ _ _ _ _ _ Hread Hencode Hparse).
  cbn zeta. cbn [snd].
  set (branch := if has_error (root_node t) then report_errors (root_node t)
                 else report_tree (root_node t)).
  assert (Forall inner_line branch.1) as Hbranch.
  { unfold branch. destruct (has_error _);
      [apply report_errors_inner|apply report_tree_inner]. }
  eexists ((show_preview code).1 ++ StartParse :: branch.1), _.
  split; [by rewrite <- app_assoc|].
  split; [apply Forall_app; split; [done|by constructor]|].
  destruct branch.2 as [ex|[]]; [right; by eauto|by left].
Qed.
(** *** The summary: counts *)

Lemma filter_length_le {A} (f : A → bool) (l : list A) :
  length (List.filter f l) ≤ length l.
Proof. induction l as [|x l IH]; [done|]. cbn. destruct (f x); cbn; lia. Qed.

Lemma filter_length_all {A} (f : A → bool) (l : list A) :
  length (List.filter f l) = length l ↔ Forall (fun x => f x = true) l.
Proof.
  induction l as [|x l IH]; [by split; [constructor|]|].
  cbn [List.filter]. rewrite Forall_cons. destruct (f x) eqn:Hx; cbn [length].
  - rewrite <- IH. split; [intros [= ?]; by split|intros [_ ?]; by f_equal].
  - pose proof (filter_length_le f l). split; [lia|by intros [? _]].
Qed.

Lemma filter_length_perm {A} (f : A → bool) (l1 l2 : list A) :
  l1 ≡ₚ l2 → length (List.filter f l1) = length (List.filter f l2).
Proof.
  induction 1 as [|x l1 l2 _ IH|x y l|l1 l2 l3 _ IH1 _ IH2]; cbn.
  - done.
  - destruct (f x); cbn; by rewrite IH.
  - by destruct (f x), (f y).
  - by rewrite IH1.
Qed.

Lemma count_passed_le (d : gmap pystr bool) : count_passed d ≤ size d.
Proof.
  unfold count_passed. rewrite <- length_map_to_list. apply filter_length_le.
Qed.

Lemma count_passed_all (d : gmap pystr bool) :
  count_passed d = size d ↔ map_Forall (fun _ success => success = true) d.
Proof.
  unfold count_passed. rewrite <- length_map_to_list, filter_length_all.
  rewrite map_Forall_to_list. apply Forall_proper; [|done].
  by intros [k v].
Qed.

(** X11. The figures of the summary are consistent: the pass count lies
    between 0 and the total, the fail count printed is their difference,
    the run is declared all passed exactly when every recorded verdict is
    pass, and otherwise the number of failures announced is that same
    difference and is at least 1.  The summary always ends with the
    completion line. *)
Theorem summary_counts (test_results : gmap pystr bool) :
  size test_results ≠ 0 →
  let total := Z.of_nat (size test_results) in
  let passed := Z.of_nat (count_passed test_results) in
  let log := (print_summary test_results).1 in
  (0 ≤ passed ≤ total)%Z
  ∧ TestsFailed (total - passed) ∈ log
  ∧ (AllPassed ∈ log ↔
     map_Forall (fun _ success => success = true) test_results)
  ∧ (∀ failed, SomeFailed failed ∈ log →
       failed = (total - passed)%Z ∧ (1 ≤ failed)%Z)
  ∧ last log = Some Completed.
Proof.
  intros Hsize. cbn zeta. rewrite (print_summary_unfold _ Hsize).
  cbn zeta. cbn [fst].
  pose proof (count_passed_le test_results) as Hle.
  set (t := Z.of_nat (size test_results)).
  set (p := Z.of_nat (count_passed test_results)).
  set (items := map (fun item : pystr * bool => Detail item.1 item.2)
                    (sorted_items bool_le test_results)).
  assert (∀ ev, (∀ k v, ev ≠ Detail k v) → ev ∉ items) as Hitems.
  { intros ev Hev Hin. unfold items in Hin.
    apply list_elem_of_fmap in Hin as ([k v] & -> & _). by eapply Hev. }
  split; [lia|]. split.
  { do 4 (apply elem_of_cons; right). apply elem_of_cons. by left. }
  split; [|split].
  - rewrite <- count_passed_all. split.
    + intros Hin.
      do 7 (apply elem_of_cons in Hin as [?|Hin]; [done|]).
      apply elem_of_app in Hin as [Hin|Hin]; [by apply Hitems in Hin|].
      destruct (Z.eqb_spec (t - p) 0) as [Hz|_]; [lia|].
      absurd_member Hin.
    + intros Hall. do 7 (apply elem_of_cons; right).
      apply elem_of_app; right.
      assert ((t - p =? 0)%Z = true) as -> by (apply Z.eqb_eq; lia). left.
  - intros failed Hin.
    do 7 (apply elem_of_cons in Hin as [?|Hin]; [done|]).
    apply elem_of_app in Hin as [Hin|Hin]; [by apply Hitems in Hin|].
    destruct (Z.eqb_spec (t - p) 0) as [Hz|Hnz]; [absurd_member Hin|].
    apply elem_of_cons in Hin as [[= ->]|Hin]; [lia|absurd_member Hin].
  - rewrite !last_cons. rewrite last_app. by destruct (_ =? 0)%Z.
Qed.

Lemma summary_counts_witness :
  AllPassed ∈ (print_summary {[ str "a.move" := true ]}).1
  ∧ last (print_summary {[ str "a.move" := true ]}).1 = Some Completed.
Proof.
  destruct (summary_counts {[ str "a.move" := true ]})
    as (_ & _ & Hall & _ & Hlast).
  - by vm_compute.
  - split; [|exact Hlast]. apply Hall.
    intros k v Hk. apply lookup_singleton_Some in Hk as [_ <-]. done.
Defined.
(** *** The run as a whole *)

Lemma main_probing_log (e : env) (parser : parser) :
  import_modules e = inr tt →
  create_parser e = inr parser →
  dir_exists e = true →
  dir_matches e ≠ [] →
  main e =
  ([Banner; Initializing; ParserCreated; LanguageName;
    Found (length (glob_move e))] ++
   map (fun entry => Listed entry.1 (basename entry.2))
       (enumerate1 (glob_move e)) ++
   StartTests ::
   flat_map (fun file_path => (test_move_file e file_path parser).1)
            (sorted (glob_move e)) ++
   (print_summary (results_of e parser (sorted (glob_move e)))).1,
   inr tt).
Proof.
  intros Himport Hparser Hdir Hnames. rewrite main_unfold.
  rewrite Himport, Hparser, Hdir. cbn [negb].
  by destruct (dir_matches e).
Qed.

(** X12. A run never lets an exception escape: whatever the environment,
    [main] returns normally and its log starts with the banner.  When the
    imports fault the log is the banner and the handler line; when the
    construction of the parser faults it is the banner, the initialising
    line and the handler line; an [ImportError] gets the import message
    and any other exception the generic one.  A run that reaches the
    probes ends with the completion line. *)
Theorem main_never_raises (e : env) :
  (main e).2 = inr tt
  ∧ head (main e).1 = Some Banner
  ∧ (∀ ex, import_modules e = inl ex →
       (main e).1 = [Banner; handler_line ex])
  ∧ (∀ ex, import_modules e = inr tt → create_parser e = inl ex →
       (main e).1 = [Banner; Initializing; handler_line ex])
  ∧ (∀ ex, handler_line ex = ImportFailed ex ↔ ex = ImportError)
  ∧ (∀ parser, import_modules e = inr tt → create_parser e = inr parser →
       dir_exists e = true → dir_matches e ≠ [] →
       last (main e).1 = Some Completed).
Proof.
  split; [|split; [|split; [|split; [|split]]]].
  - rewrite main_unfold.
    destruct (import_modules e) as [|[]]; [done|].
    destruct (create_parser e); [done|].
    destruct (negb (dir_exists e)); [done|]. by destruct (dir_matches e).
  - rewrite main_unfold.
    destruct (import_modules e) as [|[]]; [done|].
    destruct (create_parser e); [done|].
    destruct (negb (dir_exists e)); [done|]. by destruct (dir_matches e).
  - intros ex Himport. by rewrite main_unfold, Himport.
  - intros ex Himport Hparser. by rewrite main_unfold, Himport, Hparser.
  - intros ex. by destruct ex.
  - intros parser Himport Hparser Hdir Hnames.
    rewrite (main_probing_log e parser) by done. cbn [fst].
    assert (size (results_of e parser (sorted (glob_move e))) ≠ 0) as Hsize.
    { apply results_nonempty, sorted_nonempty. unfold glob_move.
      by destruct (dir_matches e). }
    rewrite (print_summary_unfold _ Hsize). cbn zeta. cbn [fst].
    rewrite !last_app. rewrite last_cons, last_app, !last_cons, last_app.
    by destruct (_ =? 0)%Z.
Qed.

Lemma main_never_raises_witness :
  main (Env (inl ImportError) (inr (parser_of clean_tree)) true [] 
            (fun _ => inr source_text)) =
    ([Banner; ImportFailed ImportError], inr tt)
  ∧ last (main mixed_world).1 = Some Completed.
Proof.
  split.
  - destruct (main_never_raises
                (Env (inl ImportError) (inr (parser_of clean_tree)) true []
                     (fun _ => inr source_text))) as (Hret & _ & Hlog & _).
    apply injective_projections; cbn [fst snd];
      [exact (Hlog ImportError eq_refl)|exact Hret].
  - destruct (main_never_raises mixed_world) as (_ & _ & _ & _ & _ & Hlast).
    by apply (Hlast (parser_of clean_tree)).
Defined.
(** *** The run as a whole: what is counted *)

Lemma filter_map_length {A B} (f : B → bool) (g : A → B) (l : list A) :
  length (List.filter f (map g l)) =
  length (List.filter (fun x => f (g x)) l).
Proof.
  induction l as [|x l IH]; [done|]. cbn [map List.filter].
  destruct (f (g x)); cbn [length]; by rewrite IH.
Qed.

Lemma results_counts (e : env) (parser : parser) (names : list pystr) :
  NoDup names → Forall (fun name => 47%N ∉ name) names →
  let results := results_of e parser (map (path_join test_dir) names) in
  size results = length names
  ∧ count_passed results =
    length (List.filter
              (fun name => verdict_of e parser (path_join test_dir name))
              names).
Proof.
  intros Hdup Hslash. cbn zeta.
  assert (map_to_list (results_of e parser (map (path_join test_dir) names))
          ≡ₚ map (fun name =>
                    (name, verdict_of e parser (path_join test_dir name)))
                 names) as Hperm.
  { unfold results_of.
    rewrite (map_to_list_fold_insert basename (verdict_of e parser)).
    - rewrite map_to_list_empty, app_nil_r, map_map.
      apply (reflexive_eq (R:=Permutation)), map_ext_in.
      intros name Hname. cbn beta.
      rewrite basename_join; [done|].
      rewrite Forall_forall in Hslash. by apply Hslash, list_elem_of_In.
    - rewrite map_map. erewrite map_ext_in; [by rewrite map_id|].
      intros name Hname. cbn beta. apply basename_join.
      rewrite Forall_forall in Hslash. by apply Hslash, list_elem_of_In.
    - intros. apply lookup_empty. }
  split.
  - by rewrite <- length_map_to_list, Hperm, length_map.
  - unfold count_passed. rewrite (filter_length_perm _ _ _ Hperm).
    by rewrite filter_map_length.
Qed.

Lemma enumerate_map {A B} (f : A → B) (l : list A) (start : nat) :
  combine (seq start (length (map f l))) (map f l) =
  map (fun entry => (entry.1, f entry.2)) (combine (seq start (length l)) l).
Proof.
  revert start. induction l as [|x l IH]; intros start; [done|].
  cbn. f_equal. apply IH.
Qed.

Lemma listed_app (l1 l2 : list event) :
  listed (l1 ++ l2) = listed l1 ++ listed l2.
Proof. apply omap_app. Qed.

Lemma listed_listing (entries : list (nat * pystr)) :
  listed (map (fun entry => Listed entry.1 (basename entry.2)) entries) =
  map (fun entry => (entry.1, basename entry.2)) entries.
Proof. induction entries as [|[i p] l IH]; [done|]. cbn. by f_equal. Qed.

Lemma listed_body (log : list event) :
  Forall (fun ev => body_line ev ∨ ∃ file_path, ev = Testing file_path) log →
  listed log = [].
Proof.
  induction 1 as [|ev log Hev _ IH]; [done|].
  destruct Hev as [Hev|[? ->]]; [|exact IH]. destruct ev; try done; exact IH.
Qed.

Lemma listed_probes (e : env) (parser : parser) (files : list pystr) :
  listed (flat_map (fun file_path => (test_move_file e file_path parser).1)
                   files) = [].
Proof.
  apply listed_body, Forall_forall. intros ev Hev.
  apply probes_lines in Hev as [[? ->]|?]; by eauto.
Qed.

Lemma listed_details (items : list (pystr * bool)) :
  listed (map (fun item => Detail item.1 item.2) items) = [].
Proof. by induction items. Qed.

(** X13. When the directory holds distinct entry names without a slash
    and the run reaches the probes, nothing is lost between discovery and
    summary: the number of files announced and the total of the summary
    both equal the number of entries, the pass count is the number of
    entries whose probe passes, and the discovery listing shows the
    entries numbered from 1 in the order [glob] yields them, which need
    not be the sorted order in which they are probed. *)
Theorem summary_totals (e : env) (parser : parser) :
  import_modules e = inr tt →
  create_parser e = inr parser →
  dir_exists e = true →
  dir_matches e ≠ [] →
  NoDup (dir_matches e) →
  Forall (fun name => 47%N ∉ name) (dir_matches e) →
  let names := dir_matches e in
  Found (length names) ∈ (main e).1
  ∧ TotalFiles (Z.of_nat (length names)) ∈ (main e).1
  ∧ TestsPassed
      (Z.of_nat
         (length (List.filter
                    (fun name => verdict_of e parser (path_join test_dir name))
                    names))) ∈ (main e).1
  ∧ listed (main e).1 = enumerate1 names.
Proof.
  intros Himport Hparser Hdir Hnames Hdup Hslash. cbn zeta.
  set (passes := Z.of_nat (length (List.filter
         (fun name => verdict_of e parser (path_join test_dir name))
         (dir_matches e)))).
  set (total := Z.of_nat (length (dir_matches e))).
  assert (sorted (dir_matches e) ≡ₚ dir_matches e) as Hperm
    by apply merge_sort_Permutation.
  assert (∃ probes details closing,
            (main e).1 =
            [Banner; Initializing; ParserCreated; LanguageName;
             Found (length (dir_matches e))] ++
            map (fun entry => Listed entry.1 (basename entry.2))
                (enumerate1 (glob_move e)) ++
            StartTests ::
            flat_map (fun file_path => (test_move_file e file_path parser).1)
                     probes ++
            [SummaryHeader; OverallHeader; TotalFiles total;
             TestsPassed passes; TestsFailed (total - passes);
             SuccessRate (inject_Z passes / inject_Z total * 100)%Q;
             DetailsHeader] ++
            map (fun item => Detail item.1 item.2) details ++
            [closing; Completed]
            ∧ (closing = AllPassed ∨ ∃ failed, closing = SomeFailed failed))
    as (probes & items & closing & Hlog & Hclosing).
  { rewrite (main_probing_log e parser) by done. cbn [fst].
    assert (size (results_of e parser (sorted (glob_move e))) ≠ 0) as Hsize.
    { apply results_nonempty, sorted_nonempty. unfold glob_move.
      by destruct (dir_matches e). }
    rewrite (print_summary_unfold _ Hsize). cbn zeta. cbn [fst].
    change (sorted (glob_move e))
      with (sorted (map (path_join test_dir) (dir_matches e))).
    rewrite sorted_glob.
    destruct (results_counts e parser (sorted (dir_matches e)))
      as [Htotal Hpassed]; [by rewrite Hperm|by rewrite Hperm|].
    cbn zeta in Htotal, Hpassed.
    rewrite Htotal, Hpassed, (filter_length_perm _ _ _ Hperm).
    rewrite (Permutation_length Hperm).
    unfold glob_move at 1. rewrite length_map.
    eexists _, _, _. split; [reflexivity|].
    destruct (_ =? 0)%Z; by eauto. }
  rewrite Hlog.
  split; [|split; [|split]].
  - apply elem_of_app; left.
    do 4 (apply elem_of_cons; right). apply elem_of_cons. by left.
  - do 2 (apply elem_of_app; right). apply elem_of_cons; right.
    apply elem_of_app; right. apply elem_of_app; left.
    do 2 (apply elem_of_cons; right). apply elem_of_cons. by left.
  - do 2 (apply elem_of_app; right). apply elem_of_cons; right.
    apply elem_of_app; right. apply elem_of_app; left.
    do 3 (apply elem_of_cons; right). apply elem_of_cons. by left.
  - rewrite !listed_app, listed_listing.
    change (listed [Banner; Initializing; ParserCreated; LanguageName;
                    Found ?n]) with (@nil (nat * pystr)).
    change (listed (StartTests :: ?log)) with (listed log).
    rewrite !listed_app, listed_probes, listed_details.
    change (listed [SummaryHeader; OverallHeader; TotalFiles ?t;
                    TestsPassed ?p; TestsFailed ?f; SuccessRate ?r;
                    DetailsHeader]) with (@nil (nat * pystr)).
    assert (listed [closing; Completed] = []) as ->
      by by destruct Hclosing as [->|[? ->]].
    cbn [app]. rewrite app_nil_r. unfold glob_move, enumerate1.
    rewrite enumerate_map, map_map. cbn [fst snd].
    erewrite map_ext_in; [apply map_id|]. intros [i name] Hin. cbn [fst snd].
    f_equal. apply basename_join. rewrite Forall_forall in Hslash.
    apply Hslash. apply in_combine_r in Hin. by apply list_elem_of_In.
Qed.

Lemma summary_totals_witness :
  Found 2 ∈ (main mixed_world).1
  ∧ TotalFiles 2 ∈ (main mixed_world).1
  ∧ TestsPassed 1 ∈ (main mixed_world).1
  ∧ listed (main mixed_world).1 = [(1, str "b.move"); (2, str "a.move")].
Proof.
  destruct (summary_totals mixed_world (parser_of clean_tree))
    as (Hfound & Htotal & Hpassed & Hlisted).
  - reflexivity.
  - reflexivity.
  - reflexivity.
  - discriminate.
  - by_compute.
  - by_compute.
  - split; [exact Hfound|]. split; [exact Htotal|]. split; [|exact Hlisted].
    assert (TestsPassed 1 = TestsPassed
      (Z.of_nat (length (List.filter
         (fun name => verdict_of mixed_world (parser_of clean_tree)
                                 (path_join test_dir name))
         (dir_matches mixed_world))))) as -> by (vm_compute; reflexivity).
    exact Hpassed.
Defined.
(** *** Separators *)



(** *** The results dictionary *)

Lemma results_of_lookup (e : env) (parser : parser) (files : list pystr)
    (name : pystr) :
  results_of e parser files !! name =
  verdict_of e parser <$>
    last (List.filter (fun file_path => bool_decide (basename file_path = name))
                      files).
Proof.
  unfold results_of. induction files as [|f files IH] using rev_ind; [done|].
  rewrite fold_left_app, List.filter_app, last_app. cbn [fold_left List.filter].
  destruct (decide (basename f = name)) as [<-|Hname].
  - rewrite bool_decide_eq_true_2 by done. by rewrite lookup_insert_eq.
  - rewrite bool_decide_eq_false_2 by done.
    rewrite lookup_insert_ne by done. exact IH.
Qed.

(** X15. The loop over the files never faults and returns [test_results]
    keyed by base name: the verdict stored under a name is the verdict
    [test_move_file] returns for the last file of the list whose base name
    it is, and a name that is the base name of no file of the list has no
    entry. *)
Theorem results_lookup (e : env) (parser : parser) (files : list pystr) :
  ∃ out test_results,
    run_tests e parser files = (out, inr test_results)
    ∧ ∀ name,
        test_results !! name =
        match last (List.filter
                      (fun file_path => bool_decide (basename file_path = name))
                      files) with
        | Some file_path =>
            match (test_move_file e file_path parser).2 with
            | inr success => Some success
            | inl _ => None
            end
        | None => None
        end.
Proof.
  rewrite run_tests_unfold. eexists _, _. split; [reflexivity|].
  intros name. rewrite results_of_lookup.
  destruct (last _) as [f|]; [|done].
  destruct (probe_log_shape e f parser) as (rest & Hrun & _).
  by rewrite Hrun.
Qed.
